(** * cxx-tree: a shallow embedding of [src/tree.cc] and its properties

    The program prints the content of a directory as a tree, down to a
    depth bound, and reports how many directories and files it counted.

    The embedding follows the source function by function.  The file
    system is an oracle answering the four system calls the program
    relies on; the [std::error_code] object that [main] owns and hands
    down by reference, together with the three statics of the
    translation unit, is threaded explicitly as a [state].  Every call
    of [traverse] and every line it prints is recorded as an [event], so
    that statements about "visited" directories and "rendered" lines
    have something to talk about; the bytes written on the standard
    output are the texts of these events, in order.

    Three assumptions are made throughout.  The file system does not
    change during a run: a path gets the same answer each time it is
    probed.  Opening a directory may fail, advancing through an opened
    one does not.  [std::size_t] and [long] have 64 bits, as the [%lu]
    of line 165 takes for granted. *)

From Stdlib Require Import String Ascii List ZArith Lia Bool DecimalString.
From Stdlib Require Import DecimalN.
Import ListNotations.

#[local] Open Scope string_scope.
#[local] Open Scope Z_scope.

(** ** Machine integers *)

(** [std::size_t]: arithmetic modulo 2^64. *)
Definition SIZE_MODULUS : Z := 2 ^ 64.

Definition to_size_t (z : Z) : Z := z mod SIZE_MODULUS.

(** [std::int32_t]: two's complement on 32 bits. *)
Definition INT32_MAX : Z := 2 ^ 31 - 1.
Definition INT32_MIN : Z := - 2 ^ 31.

Definition to_int32 (z : Z) : Z := (z + 2 ^ 31) mod 2 ^ 32 - 2 ^ 31.

(** [long]: 64 bits. *)
Definition LONG_MAX : Z := 2 ^ 63 - 1.
Definition LONG_MIN : Z := - 2 ^ 63.

(** The [errno] values the development names. *)
Definition ENOENT : Z := 2.
Definition EACCES : Z := 13.
Definition ENOTDIR : Z := 20.
Definition EOVERFLOW : Z := 75.

Definition EXIT_SUCCESS : Z := 0.
Definition EXIT_FAILURE : Z := 1.

(** ** Paths *)

(** A [fs::path] as the program builds them: the string given on the
    command line ([base]) followed by the names of the entries descended
    through, outermost first.  The root of a run has no such name. *)
Record path : Type := mkPath {
  base : string;
  rel : list string
}.

(** [directory / name], the path of an entry of [directory]. *)
Definition child (directory : path) (name : string) : path :=
  {| base := base directory; rel := rel directory ++ [name] |}.

(** [p.filename()], for the path of a directory entry. *)
Definition filename (p : path) : string := last (rel p) "".

(** [p.c_str()] for the path built from a command-line argument. *)
Definition c_str (p : path) : string :=
  fold_left (fun acc name => acc ++ "/" ++ name) (rel p) (base p).

Definition path_eqb (p q : path) : bool :=
  String.eqb (base p) (base q)
  && (if list_eq_dec string_dec (rel p) (rel q) then true else false).

(** ** The file system *)

Inductive file_type : Type :=
| ft_regular
| ft_directory
| ft_symlink
| ft_other.

(** A [fs::file_status]: the type of a file that could be examined, or
    why there is none. *)
Inductive file_status : Type :=
| st_known (t : file_type)
| st_not_found
| st_unknown
| st_none.

(** Outcome of a system call: a value, or the [errno] it failed with. *)
Inductive result (A : Type) : Type :=
| Ok (a : A)
| Failed (errno : Z).

Arguments Ok {A} a.
Arguments Failed {A} errno.

(** What the program can observe of the file system.  [stat] follows
    symbolic links and [lstat] does not; [opendir] gives the names of a
    directory in the order the listing yields them ([.] and [..] left
    out, as [fs::directory_iterator] does); [realpath] is the resolution
    [fs::canonical] performs. *)
Record filesystem : Type := mkFilesystem {
  stat : path -> result file_type;
  lstat : path -> result file_type;
  opendir : path -> result (list string);
  realpath : path -> result string
}.

(** ** Program state *)

(** [err] is the value of the [std::error_code] that [main] declares and
    every probe receives by reference; the other three fields are the
    statics of the translation unit. *)
Record state : Type := mkState {
  err : Z;
  max_depth : Z;
  total_directories : Z;
  total_files : Z
}.

Definition set_err (e : Z) (s : state) : state :=
  {| err := e; max_depth := max_depth s;
     total_directories := total_directories s; total_files := total_files s |}.

Definition set_max_depth (d : Z) (s : state) : state :=
  {| err := err s; max_depth := d;
     total_directories := total_directories s; total_files := total_files s |}.

(** Lines 73-74: both totals grow, in [std::size_t] arithmetic. *)
Definition augment (n_directories n_files : Z) (s : state) : state :=
  {| err := err s; max_depth := max_depth s;
     total_directories := to_size_t (total_directories s + n_directories);
     total_files := to_size_t (total_files s + n_files) |}.

(** The statics as initialised at lines 14, 17 and 20, and the
    value-initialised [err] of line 139. *)
Definition initial_state : state :=
  {| err := 0; max_depth := 1; total_directories := 0; total_files := 0 |}.

(** A computation that may read and overwrite the state. *)
Definition io (A : Type) : Type := state -> A * state.

Definition ret {A : Type} (a : A) : io A := fun s => (a, s).

Definition bind {A B : Type} (m : io A) (k : A -> io B) : io B :=
  fun s => let (a, s') := m s in k a s'.

Notation "x <- m ;; k" := (bind m (fun x => k))
  (at level 61, m at next level, right associativity).

(** ** Formatting *)

(** The escape character, written [\x1B] and [\033] in the source. *)
Definition ESC : string := String (ascii_of_nat 27) "".

(** [printf] restricted to the only conversion the program uses on the
    traversal path, [%s]; arguments beyond the conversions of the format
    are ignored, as in C. *)
Fixpoint sprintf (format : string) (args : list string) : string :=
  match format with
  | EmptyString => EmptyString
  | String "%"%char (String "s"%char rest) =>
      match args with
      | a :: args' => a ++ sprintf rest args'
      | [] => sprintf rest []
      end
  | String c rest => String c (sprintf rest args)
  end.

(** [%lu] of a [std::size_t]. *)
Definition decimal (z : Z) : string :=
  NilZero.string_of_uint (N.to_uint (Z.to_N z)).

(** ** [atoi] *)

Definition isspace (c : ascii) : bool :=
  let n := Z.of_nat (nat_of_ascii c) in
  (n =? 32) || ((9 <=? n) && (n <=? 13)).

Definition digit_value (c : ascii) : option Z :=
  let n := Z.of_nat (nat_of_ascii c) in
  if (48 <=? n) && (n <=? 57) then Some (n - 48) else None.

Fixpoint skip_spaces (s : string) : string :=
  match s with
  | String c rest => if isspace c then skip_spaces rest else s
  | EmptyString => s
  end.

Fixpoint digits (s : string) (acc : Z) : Z :=
  match s with
  | String c rest =>
      match digit_value c with
      | Some d => digits rest (10 * acc + d)
      | None => acc
      end
  | EmptyString => acc
  end.

(** [strtol (s, NULL, 10)]: white space, an optional sign, the longest
    run of digits; out of range values saturate. *)
Definition strtol (s : string) : Z :=
  let t := skip_spaces s in
  let v :=
    match t with
    | String c rest =>
        if Ascii.eqb c "-" then - digits rest 0
        else if Ascii.eqb c "+" then digits rest 0
        else digits t 0
    | EmptyString => 0
    end in
  Z.max LONG_MIN (Z.min LONG_MAX v).

(** [atoi] is [(int) strtol (s, NULL, 10)] in the C library the program
    links against; the conversion to [int] keeps the low 32 bits. *)
Definition atoi (s : string) : Z := to_int32 (strtol s).

Definition starts_with_digit (s : string) : bool :=
  match s with
  | String c _ => match digit_value c with Some _ => true | None => false end
  | EmptyString => false
  end.

(** A string that does not start, after white space and an optional
    sign, with a digit. *)
Definition non_numeric (s : string) : bool :=
  let t := skip_spaces s in
  match t with
  | String c rest =>
      if Ascii.eqb c "-" then negb (starts_with_digit rest)
      else if Ascii.eqb c "+" then negb (starts_with_digit rest)
      else negb (starts_with_digit t)
  | EmptyString => true
  end.

(** ** Events *)

(** The locals of the loop body of [traverse] once the probes of lines
    80-100 are done. *)
Record probed : Type := mkProbed {
  is_directory : bool;
  is_symlink : bool;
  canonical_path : string;
  access_denied : bool
}.

(** What the loop body knows when it prints the line of an entry: its
    name, the locals above, the value of [entries_count] after the
    increment of line 114, the two glyphs and the bytes handed to the
    standard output. *)
Record rendered : Type := mkRendered {
  entry_name : string;
  flags : probed;
  position : Z;
  left : string;
  right : string;
  text : string
}.

(** [Visit] is recorded where a call of [traverse] augments the totals
    (lines 73-74), [Render] where it prints (lines 117-121). *)
Inductive event : Type :=
| Visit (directory : path) (level : Z) (n_directories n_files : Z)
| Render (directory : path) (level : Z) (line : rendered).

(** The bytes a sequence of events puts on the standard output. *)
Fixpoint printed (evs : list event) : string :=
  match evs with
  | [] => ""
  | Visit _ _ _ _ :: rest => printed rest
  | Render _ _ line :: rest => text line ++ printed rest
  end.

(** ** Rendering *)

Definition NEWLINE : string := String (ascii_of_nat 10) "".

(** Branch and continuation glyphs of lines 114-115. *)
Definition LAST_BRANCH : string := "└──".
Definition INNER_BRANCH : string := "├──".
Definition LAST_CONTINUATION : string := "    ".
Definition INNER_CONTINUATION : string := "│   ".

(** The five formats of lines 103-112. *)
Definition FORMAT_SYMLINK_DIRECTORY : string :=
  "%s%s " ++ ESC ++ "[94m%s" ++ ESC ++ "[0m -> " ++ ESC ++ "[92m%s" ++ ESC ++ "[0m"
  ++ NEWLINE.
Definition FORMAT_SYMLINK_FILE : string :=
  "%s%s %s -> " ++ ESC ++ "[92m%s" ++ ESC ++ "[0m" ++ NEWLINE.
Definition FORMAT_ACCESS_DENIED : string :=
  "%s%s " ++ ESC ++ "[94m%s" ++ ESC ++ "[0m [%s]" ++ NEWLINE.
Definition FORMAT_DIRECTORY : string :=
  "%s%s " ++ ESC ++ "[94m%s" ++ ESC ++ "[0m" ++ NEWLINE.
Definition FORMAT_FILE : string :=
  "%s%s %s" ++ NEWLINE.

(** Lines 102-121: the choice of the format and of the glyphs, and the
    call of [printf].  [entries_count] is the value already incremented,
    [total] is [n_directories + n_files]. *)
Definition render_entry (segment : string) (level max_depth : Z)
    (entry_name : string) (q : probed) (entries_count total : Z) : rendered :=
  let marked := access_denied q && negb (level =? max_depth) in
  let format :=
    if is_symlink q
    then if is_directory q then FORMAT_SYMLINK_DIRECTORY else FORMAT_SYMLINK_FILE
    else if is_directory q
         then if marked then FORMAT_ACCESS_DENIED else FORMAT_DIRECTORY
         else FORMAT_FILE in
  let last := entries_count =? total in
  let left := if last then LAST_BRANCH else INNER_BRANCH in
  let right := if last then LAST_CONTINUATION else INNER_CONTINUATION in
  {| entry_name := entry_name;
     flags := q;
     position := entries_count;
     left := left;
     right := right;
     text :=
       if is_symlink q
       then sprintf format [segment; left; entry_name; canonical_path q]
       else if marked
            then sprintf format [segment; left; entry_name; "access denied"]
            else sprintf format [segment; left; entry_name] |}.

(** The condition of line 126. *)
Definition recurses (q : probed) (level max_depth : Z) : bool :=
  is_directory q && negb (is_symlink q) && negb (access_denied q)
  && negb (level =? max_depth).

(** The status a failed [stat] or [lstat] is reported as. *)
Definition status_of_errno (e : Z) : file_status :=
  if (e =? ENOENT) || (e =? ENOTDIR) then st_not_found
  else if e =? EOVERFLOW then st_unknown
  else st_none.

Section Program.

Variable fs : filesystem.

(** ** Probes

    Each overload taking a [std::error_code &] clears it on success and
    stores the failure in it otherwise; none of them throws. *)

(** [fs::status (p, err)]. *)
Definition status (p : path) : io file_status := fun s =>
  match stat fs p with
  | Ok t => (st_known t, set_err 0 s)
  | Failed e => (status_of_errno e, set_err e s)
  end.

(** [fs::symlink_status (p, err)]. *)
Definition symlink_status (p : path) : io file_status := fun s =>
  match lstat fs p with
  | Ok t => (st_known t, set_err 0 s)
  | Failed e => (status_of_errno e, set_err e s)
  end.

(** [fs::exists (p, err)]: [err] is cleared as soon as the status is
    known, be it that nothing was found. *)
Definition fs_exists (p : path) : io bool :=
  st <- status p ;;
  match st with
  | st_none => ret false
  | st_not_found => fun s => (false, set_err 0 s)
  | _ => fun s => (true, set_err 0 s)
  end.

(** [fs::is_directory (p, err)]: the type of what [p] resolves to. *)
Definition fs_is_directory (p : path) : io bool :=
  st <- status p ;;
  ret (match st with st_known ft_directory => true | _ => false end).

(** [fs::is_symlink (p, err)]: the type of [p] itself. *)
Definition fs_is_symlink (p : path) : io bool :=
  st <- symlink_status p ;;
  ret (match st with st_known ft_symlink => true | _ => false end).

(** [fs::canonical (p, err)]: the empty path on failure. *)
Definition fs_canonical (p : path) : io string := fun s =>
  match realpath fs p with
  | Ok target => (target, set_err 0 s)
  | Failed e => ("", set_err e s)
  end.

(** [fs::directory_iterator (p, err)]: the entries of [p], or the end
    iterator when the directory cannot be opened. *)
Definition fs_directory_iterator (p : path) : io (list path) := fun s =>
  match opendir fs p with
  | Ok names => (map (child p) names, set_err 0 s)
  | Failed e => ([], set_err e s)
  end.

(** ** Counter *)

(** [std::count_if] over a directory range, the predicate being free to
    overwrite [err]. *)
Fixpoint count_if (pred : path -> io bool) (entries : list path) (n : Z) : io Z :=
  match entries with
  | [] => ret n
  | p :: rest =>
      b <- pred p ;;
      count_if pred rest (if b then n + 1 else n)
  end.

Definition number_of_directories_in_directory (directory : path) : io Z :=
  entries <- fs_directory_iterator directory ;;
  n <- count_if (fun p => fs_is_directory p) entries 0 ;;
  ret (to_size_t n).

Definition number_of_files_in_directory (directory : path) : io Z :=
  entries <- fs_directory_iterator directory ;;
  n <- count_if (fun p => b <- fs_is_directory p ;; ret (negb b)) entries 0 ;;
  ret (to_size_t n).

(** ** Walker *)

(** Lines 80-100: the probes on one entry.  [access_denied] reads
    whatever the last of them left in [err]. *)
Definition probe (entry : path) : io probed :=
  is_directory <- fs_is_directory entry ;;
  is_symlink <- fs_is_symlink entry ;;
  canonical_path <-
    (b <- fs_is_symlink entry ;; if b then fs_canonical entry else ret "") ;;
  _ <- (if is_directory : bool then fs_directory_iterator entry else ret []) ;;
  fun s =>
    ({| is_directory := is_directory;
        is_symlink := is_symlink;
        canonical_path := canonical_path;
        access_denied := EACCES =? err s |}, s).

(** Lines 80-129, the body of the loop, for one [entry]; [self] is the
    recursive call.  The result carries the events of the iteration, the
    incremented [entries_count] and the state; [None] only comes from
    [self]. *)
Definition visit_entry
    (self : path -> Z -> string -> state -> option (list event * state))
    (directory : path) (level : Z) (segment : string)
    (n_directories n_files : Z)
    (entry : path) (entries_count : Z) (s : state)
  : option (list event * Z * state) :=
  let (q, s) := probe entry s in
  let entries_count := to_size_t (entries_count + 1) in
  let line :=
    render_entry segment level (max_depth s) (filename entry) q
      entries_count (to_size_t (n_directories + n_files)) in
  if recurses q level (max_depth s)
  then
    match self entry (to_int32 (1 + level)) (segment ++ right line) s with
    | Some (evs, s') => Some (Render directory level line :: evs, entries_count, s')
    | None => None
    end
  else Some ([Render directory level line], entries_count, s).

(** The range-based [for] of line 78. *)
Fixpoint for_each_entry
    (body : path -> Z -> state -> option (list event * Z * state))
    (entries : list path) (entries_count : Z) (s : state)
  : option (list event * state) :=
  match entries with
  | [] => Some ([], s)
  | entry :: rest =>
      match body entry entries_count s with
      | Some (evs, entries_count', s') =>
          match for_each_entry body rest entries_count' s' with
          | Some (evs', s'') => Some ((evs ++ evs')%list, s'')
          | None => None
          end
      | None => None
      end
  end.

(** [traverse (directory, err, level, segment)].  The recursion of the
    source is bounded by [fuel] nested calls; [None] means the bound was
    hit. *)
Fixpoint traverse (fuel : nat) (directory : path) (level : Z) (segment : string)
    (s : state) : option (list event * state) :=
  match fuel with
  | O => None
  | S fuel' =>
      let (n_directories, s) := number_of_directories_in_directory directory s in
      let (n_files, s) := number_of_files_in_directory directory s in
      let entries_count := 0 in
      let s := augment n_directories n_files s in
      let (entries, s) := fs_directory_iterator directory s in
      match
        for_each_entry
          (visit_entry (traverse fuel') directory level segment n_directories n_files)
          entries entries_count s
      with
      | Some (evs, s') => Some (Visit directory level n_directories n_files :: evs, s')
      | None => None
      end
  end.

(** ** Entry point *)

(** What a run leaves behind: the exit status, the two streams, the
    events of the traversal and the final state. *)
Record run : Type := mkRun {
  exit_status : Z;
  stdout : string;
  stderr : string;
  trace : list event;
  final : state
}.

(** [fatal (format, arg)]: the message goes to the error stream and the
    process exits with [EXIT_FAILURE]; nothing was printed before. *)
Definition fatal (format : string) (arg : string) (s : state) : run :=
  let fmt_buffer := sprintf ("cxx-tree: %s" ++ NEWLINE) [format] in
  {| exit_status := EXIT_FAILURE;
     stdout := "";
     stderr := sprintf fmt_buffer [arg];
     trace := [];
     final := s |}.

Definition noun (count : Z) (singular plural : string) : string :=
  if count =? 1 then singular else plural.

(** Lines 165-167. *)
Definition summary (s : state) : string :=
  NEWLINE ++ decimal (total_directories s) ++ " "
  ++ noun (total_directories s) "directory" "directories" ++ ", "
  ++ decimal (total_files s) ++ " "
  ++ noun (total_files s) "file" "files" ++ NEWLINE.

(** Lines 150-154: the depth bound in force for the traversal. *)
Definition parse_depth (argv : list string) (s : state) : state :=
  if 3 <=? Z.of_nat (length argv)
  then
    let s := set_max_depth (atoi (nth 2 argv "")) s in
    set_max_depth (if max_depth s <? 1 then 1 else max_depth s) s
  else s.

(** Line 137: the directory to traverse. *)
Definition root_of (argv : list string) : path :=
  {| base := match nth_error argv 1 with Some a => a | None => "." end;
     rel := [] |}.

(** [main (argc, argv)], [argv] being the [argc] arguments, the name of
    the program first.  The traversal is given as much fuel as the depth
    bound, which is always enough ([main_returns]). *)
Definition main (argv : list string) : option run :=
  let directory := root_of argv in
  let s := initial_state in
  let (found, s) := fs_exists directory s in
  if negb found
  then Some (fatal "cannot access '%s': No such directory" (c_str directory) s)
  else
    let (is_directory, s) := fs_is_directory directory s in
    if negb is_directory
    then Some (fatal "%s: Not a directory" (c_str directory) s)
    else
      let s := parse_depth argv s in
      match traverse (Z.to_nat (max_depth s)) directory 1 "" s with
      | Some (evs, s') =>
          Some {| exit_status := EXIT_SUCCESS;
                  stdout := c_str directory ++ NEWLINE ++ printed evs ++ summary s';
                  stderr := "";
                  trace := evs;
                  final := s' |}
      | None => None
      end.
End Program.

(** ** The walk, in terms of the file system alone

    The definitions of this section say what the probes answer about a
    path without threading [err], and [walked] describes the events of a
    call of [traverse] by the shape of the tree it goes through.  Both
    are proof devices: [traverse_walked] shows that they agree with the
    code, and the properties below are then established by induction on
    [walked]. *)

Definition errno_of {A : Type} (r : result A) : Z :=
  match r with
  | Ok _ => 0
  | Failed e => e
  end.

(** Sum, over the calls of [traverse] recorded in [evs], of the numbers
    of directories, and of files, each of them counted. *)
Fixpoint sum_directories (evs : list event) : Z :=
  match evs with
  | [] => 0
  | Visit _ _ n_directories _ :: rest => n_directories + sum_directories rest
  | Render _ _ _ :: rest => sum_directories rest
  end.

Fixpoint sum_files (evs : list event) : Z :=
  match evs with
  | [] => 0
  | Visit _ _ _ n_files :: rest => n_files + sum_files rest
  | Render _ _ _ :: rest => sum_files rest
  end.

Section Walk.

Variable fs : filesystem.

(** The path resolves to a directory. *)
Definition directory_at (p : path) : bool :=
  match stat fs p with
  | Ok ft_directory => true
  | _ => false
  end.

(** The path is itself a symbolic link. *)
Definition symlink_at (p : path) : bool :=
  match lstat fs p with
  | Ok ft_symlink => true
  | _ => false
  end.

(** There is something at the path, as far as [fs::exists] can tell. *)
Definition present (p : path) : bool :=
  match stat fs p with
  | Ok _ => true
  | Failed e => match status_of_errno e with st_unknown => true | _ => false end
  end.

(** Enumerating the path fails for lack of permission. *)
Definition permission_denied (p : path) : bool :=
  match opendir fs p with
  | Failed e => e =? EACCES
  | Ok _ => false
  end.

(** The names the path yields when enumerated. *)
Definition listing (p : path) : list string :=
  match opendir fs p with
  | Ok names => names
  | Failed _ => []
  end.

Definition entries_of (p : path) : list path := map (child p) (listing p).

Definition target_at (p : path) : string :=
  if symlink_at p
  then match realpath fs p with Ok target => target | Failed _ => "" end
  else "".

(** What [err] holds once the probes of the loop body are done with an
    entry: the outcome of the last call that received it. *)
Definition errno_after (p : path) : Z :=
  if directory_at p then errno_of (opendir fs p)
  else if symlink_at p then errno_of (realpath fs p)
  else errno_of (lstat fs p).

Definition probe_of (p : path) : probed :=
  {| is_directory := directory_at p;
     is_symlink := symlink_at p;
     canonical_path := target_at p;
     access_denied := EACCES =? errno_after p |}.

Definition directories_in (d : path) : Z :=
  to_size_t (Z.of_nat (length (filter directory_at (entries_of d)))).

Definition files_in (d : path) : Z :=
  to_size_t (Z.of_nat (length (filter (fun p => negb (directory_at p)) (entries_of d)))).

(** The line of the entry [name] of [d], [count] entries of [d] having
    been rendered before it. *)
Definition line_of (md : Z) (d : path) (level : Z) (segment : string)
    (name : string) (count : Z) : rendered :=
  render_entry segment level md name (probe_of (child d name))
    (to_size_t (count + 1)) (to_size_t (directories_in d + files_in d)).

(** The walker goes into the entry [p] met at [level]. *)
Definition expands (md : Z) (p : path) (level : Z) : bool :=
  recurses (probe_of p) level md.

Inductive walked (md : Z) : path -> Z -> string -> list event -> Prop :=
| walked_directory : forall d level segment evs,
    listed md d level segment (listing d) 0 evs ->
    walked md d level segment
      (Visit d level (directories_in d) (files_in d) :: evs)
with listed (md : Z) : path -> Z -> string -> list string -> Z -> list event -> Prop :=
| listed_done : forall d level segment count,
    listed md d level segment [] count []
| listed_leaf : forall d level segment name rest count evs,
    expands md (child d name) level = false ->
    listed md d level segment rest (to_size_t (count + 1)) evs ->
    listed md d level segment (name :: rest) count
      (Render d level (line_of md d level segment name count) :: evs)
| listed_expanded : forall d level segment name rest count sub evs,
    expands md (child d name) level = true ->
    walked md (child d name) (to_int32 (1 + level))
      (segment ++ right (line_of md d level segment name count)) sub ->
    listed md d level segment rest (to_size_t (count + 1)) evs ->
    listed md d level segment (name :: rest) count
      (Render d level (line_of md d level segment name count) :: sub ++ evs)%list.

Scheme walked_mind := Minimality for walked Sort Prop
  with listed_mind := Minimality for listed Sort Prop.

Combined Scheme walked_listed_ind from walked_mind, listed_mind.

End Walk.

(** ** Vocabulary of the properties *)

(** The statics, that is the state without [err]. *)
Definition statics (s : state) : Z * Z * Z :=
  (max_depth s, total_directories s, total_files s).

(** The state after the additions recorded in [evs], one per [Visit], in
    the order of the events. *)
Fixpoint replay (evs : list event) (s : state) : state :=
  match evs with
  | [] => s
  | Visit _ _ n_directories n_files :: rest => replay rest (augment n_directories n_files s)
  | Render _ _ _ :: rest => replay rest s
  end.

(** The state [s'] is [s] once the counts recorded in [evs] were added,
    [err] apart. *)
Definition accounts (s s' : state) (evs : list event) : Prop :=
  statics s' = statics (replay evs s).

(** The totals are within [std::size_t]. *)
Definition ranged (s : state) : Prop :=
  0 <= total_directories s < SIZE_MODULUS /\ 0 <= total_files s < SIZE_MODULUS.

(** The directory an event is about, and the level of the call it
    belongs to. *)
Definition event_directory (e : event) : path :=
  match e with
  | Visit d _ _ _ => d
  | Render d _ _ => d
  end.

Definition event_level (e : event) : Z :=
  match e with
  | Visit _ l _ _ => l
  | Render _ l _ => l
  end.

(** [p] is [d] or lies under it. *)
Definition below (d p : path) : Prop :=
  base p = base d /\ exists suffix, rel p = (rel d ++ suffix)%list.

(** [traverse] was called on [p] in the course of [evs]: its counts were
    computed and added to the totals. *)
Definition visited (p : path) (evs : list event) : Prop :=
  exists l nd nf, In (Visit p l nd nf) evs.

(** The level of an event is the level of the walk plus the number of
    names between the directory walked and the directory of the event;
    it stays within the bound. *)
Definition levelled (md : Z) (d : path) (level : Z) (e : event) : Prop :=
  event_level e
  = level + Z.of_nat (length (rel (event_directory e))) - Z.of_nat (length (rel d))
  /\ level <= event_level e <= md.

(** Every directory on the way from [d], walked at [level], down to [p]
    was one the walker goes into. *)
Definition descent (fs : filesystem) (md : Z) (d : path) (level : Z) (p : path) : Prop :=
  forall pre name post,
    rel p = (rel d ++ pre ++ name :: post)%list ->
    expands fs md {| base := base d; rel := rel d ++ pre ++ [name] |}
      (level + Z.of_nat (length pre)) = true.

(** The lines rendered for the children of [d] itself, in order. *)
Fixpoint own_lines (d : path) (evs : list event) : list rendered :=
  match evs with
  | [] => []
  | Visit _ _ _ _ :: rest => own_lines d rest
  | Render p _ line :: rest =>
      if path_eqb p d then line :: own_lines d rest else own_lines d rest
  end.

(** The lines of the entries [names] of [d], [count] entries of [d]
    having been rendered before them. *)
Fixpoint lines_from (fs : filesystem) (md : Z) (d : path) (level : Z)
    (segment : string) (names : list string) (count : Z) : list rendered :=
  match names with
  | [] => []
  | name :: rest =>
      line_of fs md d level segment name count
      :: lines_from fs md d level segment rest (to_size_t (count + 1))
  end.

(** The depth bound a run with the arguments [argv] works with. *)
Definition effective_depth (argv : list string) : Z :=
  max_depth (parse_depth argv initial_state).

(** The state in which [main] starts the traversal. *)
Definition started (argv : list string) : state :=
  parse_depth argv (set_err 0 initial_state).

(** The two file systems answer alike about [p]. *)
Definition agree_at (fs1 fs2 : filesystem) (p : path) : Prop :=
  stat fs1 p = stat fs2 p /\ lstat fs1 p = lstat fs2 p
  /\ opendir fs1 p = opendir fs2 p /\ realpath fs1 p = realpath fs2 p.

(** The two file systems answer alike about the path [root] names and
    about every path reached from it. *)
Definition agree_below (root : string) (fs1 fs2 : filesystem) : Prop :=
  forall p, base p = root -> agree_at fs1 fs2 p.

(** ** Sample file systems *)

(** A directory [.] holding a file, a directory [sub] (itself holding a
    file and a directory), a link to [sub] and a directory that cannot
    be read. *)
Definition sample_fs : filesystem :=
  {| stat := fun p =>
       match rel p with
       | [] | ["sub"] | ["link"] | ["locked"] | ["sub"; "inner"] => Ok ft_directory
       | ["a.txt"] | ["sub"; "deep.txt"] | ["sub"; "inner"; "x"] => Ok ft_regular
       | _ => Failed ENOENT
       end;
     lstat := fun p =>
       match rel p with
       | [] | ["sub"] | ["locked"] | ["sub"; "inner"] => Ok ft_directory
       | ["link"] => Ok ft_symlink
       | ["a.txt"] | ["sub"; "deep.txt"] | ["sub"; "inner"; "x"] => Ok ft_regular
       | _ => Failed ENOENT
       end;
     opendir := fun p =>
       match rel p with
       | [] => Ok ["a.txt"; "sub"; "link"; "locked"]
       | ["sub"] | ["link"] => Ok ["deep.txt"; "inner"]
       | ["sub"; "inner"] => Ok ["x"]
       | ["locked"] => Failed EACCES
       | _ => Failed ENOTDIR
       end;
     realpath := fun p =>
       match rel p with
       | ["link"] => Ok "/home/u/sub"
       | _ => Failed ENOENT
       end |}.

(** The same below [.], and nothing anywhere else. *)
Definition sample_fs_alone : filesystem :=
  {| stat := fun p => if String.eqb (base p) "." then stat sample_fs p else Failed ENOENT;
     lstat := fun p => if String.eqb (base p) "." then lstat sample_fs p else Failed ENOENT;
     opendir := fun p =>
       if String.eqb (base p) "." then opendir sample_fs p else Failed ENOENT;
     realpath := fun p =>
       if String.eqb (base p) "." then realpath sample_fs p else Failed ENOENT |}.

(** A directory [.] with nothing in it. *)
Definition empty_fs : filesystem :=
  {| stat := fun p => match rel p with [] => Ok ft_directory | _ => Failed ENOENT end;
     lstat := fun p => match rel p with [] => Ok ft_directory | _ => Failed ENOENT end;
     opendir := fun p => match rel p with [] => Ok [] | _ => Failed ENOENT end;
     realpath := fun _ => Failed ENOENT |}.

(** A directory [.] holding a directory [sub], itself holding a file. *)
Definition nested_fs : filesystem :=
  {| stat := fun p =>
       match rel p with
       | [] | ["sub"] => Ok ft_directory
       | ["sub"; "deep.txt"] => Ok ft_regular
       | _ => Failed ENOENT
       end;
     lstat := fun p =>
       match rel p with
       | [] | ["sub"] => Ok ft_directory
       | ["sub"; "deep.txt"] => Ok ft_regular
       | _ => Failed ENOENT
       end;
     opendir := fun p =>
       match rel p with
       | [] => Ok ["sub"]
       | ["sub"] => Ok ["deep.txt"]
       | ["sub"; "deep.txt"] => Failed ENOTDIR
       | _ => Failed ENOENT
       end;
     realpath := fun _ => Failed ENOENT |}.

(** Nothing anywhere, and a regular file whatever the path. *)
Definition absent_fs : filesystem :=
  {| stat := fun _ => Failed ENOENT;
     lstat := fun _ => Failed ENOENT;
     opendir := fun _ => Failed ENOENT;
     realpath := fun _ => Failed ENOENT |}.

Definition file_fs : filesystem :=
  {| stat := fun _ => Ok ft_regular;
     lstat := fun _ => Ok ft_regular;
     opendir := fun _ => Failed ENOTDIR;
     realpath := fun p => Ok (base p) |}.

Definition sample_argv : list string := ["cxx-tree"; "."; "2"].

Definition sample_root : path := {| base := "."; rel := [] |}.

(** The run of the program on [sample_fs] with a depth bound of 2. *)
Definition sample_run : run :=
  Eval vm_compute in
    match main sample_fs sample_argv with
    | Some r => r
    | None => fatal "" "" initial_state
    end.

(** The run of the program on [empty_fs]. *)
Definition empty_run : run :=
  Eval vm_compute in
    match main empty_fs ["cxx-tree"] with
    | Some r => r
    | None => fatal "" "" initial_state
    end.

(** The line [sample_run] renders for [locked], the last entry of [.]. *)
Definition locked_line : rendered :=
  Eval vm_compute in
    render_entry "" 1 2 "locked"
      {| is_directory := true; is_symlink := false; canonical_path := "";
         access_denied := true |} 4 4.

(** The line [sample_run] renders for [sub], and the one for [link]. *)
Definition sub_line : rendered :=
  Eval vm_compute in
    render_entry "" 1 2 "sub"
      {| is_directory := true; is_symlink := false; canonical_path := "";
         access_denied := false |} 2 4.

Definition link_line : rendered :=
  Eval vm_compute in
    render_entry "" 1 2 "link"
      {| is_directory := true; is_symlink := true; canonical_path := "/home/u/sub";
         access_denied := false |} 3 4.

(** ** Vocabulary of the further properties *)

(** A name in the colour of directories, a target in that of links. *)
Definition blue (name : string) : string := ESC ++ "[94m" ++ name ++ ESC ++ "[0m".
Definition green (target : string) : string := ESC ++ "[92m" ++ target ++ ESC ++ "[0m".

(** What a line says of its entry, after the branch glyph and the space
    that follows it, the locals of the loop body being [q]. *)
Definition label (name : string) (q : probed) (level max_depth : Z) : string :=
  if is_symlink q
  then (if is_directory q then blue name else name)
       ++ " -> " ++ green (canonical_path q)
  else if is_directory q
       then blue name
            ++ (if access_denied q && negb (level =? max_depth)
                then " [access denied]" else "")
       else name.

(** One of the two continuation glyphs. *)
Definition continuation (glyph : string) : Prop :=
  glyph = LAST_CONTINUATION \/ glyph = INNER_CONTINUATION.

(** The glyphs of an indentation, one after the other. *)
Fixpoint join (glyphs : list string) : string :=
  match glyphs with
  | [] => ""
  | glyph :: rest => glyph ++ join rest
  end.

(** The events do not start with a visit: they start with a line or
    there is none. *)
Definition headed_by_line (evs : list event) : Prop :=
  match evs with
  | Visit _ _ _ _ :: _ => False
  | _ => True
  end.

(** Numbers of lines rendered for entries that resolve to a directory,
    and for the others. *)
Fixpoint directory_lines (evs : list event) : Z :=
  match evs with
  | [] => 0
  | Render _ _ line :: rest =>
      (if is_directory (flags line) then 1 else 0) + directory_lines rest
  | Visit _ _ _ _ :: rest => directory_lines rest
  end.

Fixpoint file_lines (evs : list event) : Z :=
  match evs with
  | [] => 0
  | Render _ _ line :: rest =>
      (if is_directory (flags line) then 0 else 1) + file_lines rest
  | Visit _ _ _ _ :: rest => file_lines rest
  end.

(** What the last probe of a Counter leaves in [err]: the outcome of
    [stat] on the last entry listed, or of opening the directory when
    nothing was listed. *)
Definition errno_counted (fs : filesystem) (d : path) : Z :=
  match rev (entries_of fs d) with
  | p :: _ => errno_of (stat fs p)
  | [] => errno_of (opendir fs d)
  end.

(** A directory [.] holding a directory [gone] that is there for [stat]
    and no more when it comes to opening it. *)
Definition vanished_fs : filesystem :=
  {| stat := fun p =>
       match rel p with
       | [] | ["gone"] => Ok ft_directory
       | _ => Failed ENOENT
       end;
     lstat := fun p =>
       match rel p with
       | [] | ["gone"] => Ok ft_directory
       | _ => Failed ENOENT
       end;
     opendir := fun p =>
       match rel p with
       | [] => Ok ["gone"]
       | _ => Failed ENOENT
       end;
     realpath := fun _ => Failed ENOENT |}.

Definition vanished_run : run :=
  Eval vm_compute in
    match main vanished_fs sample_argv with
    | Some r => r
    | None => fatal "" "" initial_state
    end.

Definition gone_line : rendered :=
  Eval vm_compute in
    render_entry "" 1 2 "gone"
      {| is_directory := true; is_symlink := false; canonical_path := "";
         access_denied := false |} 1 1.


(** The run of the program on [sample_fs] with no depth given. *)
Definition shallow_run : run :=
  Eval vm_compute in
    match main sample_fs ["cxx-tree"; "."] with
    | Some r => r
    | None => fatal "" "" initial_state
    end.

(** * Properties *)

(** ** Arithmetic of the machine integers *)

Lemma to_size_t_range z : 0 <= to_size_t z < SIZE_MODULUS.
Proof. unfold to_size_t, SIZE_MODULUS. apply Z.mod_pos_bound. lia. Qed.

Lemma to_size_t_small z : 0 <= z < SIZE_MODULUS -> to_size_t z = z.
Proof. intros H. unfold to_size_t. apply Z.mod_small. exact H. Qed.

Lemma to_size_t_add_l a b : to_size_t (to_size_t a + b) = to_size_t (a + b).
Proof. unfold to_size_t. apply Zplus_mod_idemp_l. Qed.

Lemma to_size_t_add_r a b : to_size_t (a + to_size_t b) = to_size_t (a + b).
Proof. unfold to_size_t. apply Zplus_mod_idemp_r. Qed.

Lemma to_int32_small z : INT32_MIN <= z <= INT32_MAX -> to_int32 z = z.
Proof.
  unfold INT32_MIN, INT32_MAX, to_int32. intros H.
  rewrite Z.mod_small; lia.
Qed.

Lemma to_int32_range z : INT32_MIN <= to_int32 z <= INT32_MAX.
Proof.
  unfold INT32_MIN, INT32_MAX, to_int32.
  pose proof (Z.mod_pos_bound (z + 2 ^ 31) (2 ^ 32) eq_refl) as H.
  change (2 ^ 32) with 4294967296 in *. change (2 ^ 31) with 2147483648 in *.
  lia.
Qed.

(** ** Paths *)

Lemma filename_child d name : filename (child d name) = name.
Proof. unfold filename, child. simpl. apply last_last. Qed.

Lemma child_inj d name d' name' :
  child d name = child d' name' -> rel d = rel d' /\ name = name'.
Proof.
  unfold child. intros H. injection H as _ H.
  apply app_inj_tail in H. exact H.
Qed.

Lemma child_not_root d name : rel (child d name) <> [].
Proof. unfold child. simpl. destruct (rel d); discriminate. Qed.

(** ** The probes leave the statics alone and forget the previous [err] *)

Section Probes.

Variable fs : filesystem.

Lemma bind_run {A B : Type} (m : io A) (k : A -> io B) s :
  bind m k s = let (a, s') := m s in k a s'.
Proof. reflexivity. Qed.

Lemma set_err_set_err e e' s : set_err e (set_err e' s) = set_err e s.
Proof. reflexivity. Qed.

Lemma fs_is_directory_spec p s :
  fs_is_directory fs p s = (directory_at fs p, set_err (errno_of (stat fs p)) s).
Proof.
  unfold fs_is_directory, bind, status, ret, directory_at.
  destruct (stat fs p) as [t | e]; [reflexivity |].
  unfold status_of_errno.
  destruct ((e =? ENOENT) || (e =? ENOTDIR)), (e =? EOVERFLOW); reflexivity.
Qed.

Lemma fs_is_symlink_spec p s :
  fs_is_symlink fs p s = (symlink_at fs p, set_err (errno_of (lstat fs p)) s).
Proof.
  unfold fs_is_symlink, bind, symlink_status, ret, symlink_at.
  destruct (lstat fs p) as [t | e]; [reflexivity |].
  unfold status_of_errno.
  destruct ((e =? ENOENT) || (e =? ENOTDIR)), (e =? EOVERFLOW); reflexivity.
Qed.

Lemma fs_directory_iterator_spec p s :
  fs_directory_iterator fs p s = (entries_of fs p, set_err (errno_of (opendir fs p)) s).
Proof.
  unfold fs_directory_iterator, entries_of, listing.
  destruct (opendir fs p) as [names | e]; reflexivity.
Qed.

(** The probes of the loop body answer what the file system says about
    the entry, whatever [err] held before. *)
Lemma probe_spec entry s :
  probe fs entry s = (probe_of fs entry, set_err (errno_after fs entry) s).
Proof.
  unfold probe, bind.
  rewrite fs_is_directory_spec, !fs_is_symlink_spec.
  unfold probe_of, errno_after, target_at, fs_canonical, ret.
  destruct (symlink_at fs entry); destruct (realpath fs entry) as [t | e];
    destruct (directory_at fs entry); rewrite ?fs_directory_iterator_spec;
    cbn; reflexivity.
Qed.

Lemma count_if_directories entries : forall n s,
  exists e,
    count_if (fun p => fs_is_directory fs p) entries n s
    = (n + Z.of_nat (length (filter (directory_at fs) entries)),
       set_err e s).
Proof.
  induction entries as [| p rest IH]; intros n s; simpl.
  - exists (err s). unfold ret. rewrite Z.add_0_r. destruct s; reflexivity.
  - unfold bind. rewrite fs_is_directory_spec.
    destruct (IH (if directory_at fs p then n + 1 else n)
                 (set_err (errno_of (stat fs p)) s)) as [e He].
    exists e. rewrite He. rewrite set_err_set_err.
    destruct (directory_at fs p); simpl length; f_equal; lia.
Qed.

Lemma count_if_files entries : forall n s,
  exists e,
    count_if (fun p => b <- fs_is_directory fs p ;; ret (negb b)) entries n s
    = (n + Z.of_nat (length (filter (fun p => negb (directory_at fs p)) entries)),
       set_err e s).
Proof.
  induction entries as [| p rest IH]; intros n s; simpl.
  - exists (err s). unfold ret. rewrite Z.add_0_r. destruct s; reflexivity.
  - unfold bind at 1 2. rewrite fs_is_directory_spec. unfold ret at 1.
    destruct (IH (if negb (directory_at fs p) then n + 1 else n)
                 (set_err (errno_of (stat fs p)) s)) as [e He].
    exists e. rewrite He. rewrite set_err_set_err.
    destruct (directory_at fs p); simpl negb; cbv iota; simpl length; f_equal; lia.
Qed.

(** The two counts of a directory only depend on the file system. *)
Lemma number_of_directories_spec d s :
  exists e,
    number_of_directories_in_directory fs d s = (directories_in fs d, set_err e s).
Proof.
  unfold number_of_directories_in_directory, bind.
  rewrite fs_directory_iterator_spec.
  destruct (count_if_directories (entries_of fs d) 0
              (set_err (errno_of (opendir fs d)) s)) as [e He].
  exists e. rewrite He. reflexivity.
Qed.

Lemma number_of_files_spec d s :
  exists e,
    number_of_files_in_directory fs d s = (files_in fs d, set_err e s).
Proof.
  unfold number_of_files_in_directory.
  rewrite bind_run, fs_directory_iterator_spec, bind_run.
  destruct (count_if_files (entries_of fs d) 0
              (set_err (errno_of (opendir fs d)) s)) as [e He].
  exists e. rewrite He. reflexivity.
Qed.

End Probes.

(** ** The code walks as [walked] says *)

Lemma replay_app evs evs' s : replay (evs ++ evs') s = replay evs' (replay evs s).
Proof.
  revert s. induction evs as [| [d l nd nf | d l line] evs IH]; intros s; simpl; auto.
Qed.

Lemma replay_statics evs : forall s1 s2,
  statics s1 = statics s2 -> statics (replay evs s1) = statics (replay evs s2).
Proof.
  induction evs as [| [d l nd nf | d l line] evs IH]; intros s1 s2 H; simpl; auto.
  apply IH. unfold statics in *. simpl. injection H as -> -> ->. reflexivity.
Qed.

Lemma replay_max_depth evs s : max_depth (replay evs s) = max_depth s.
Proof.
  revert s. induction evs as [| [d l nd nf | d l line] evs IH]; intros s; simpl; auto.
  rewrite IH. reflexivity.
Qed.

Lemma replay_totals evs : forall s,
  ranged s ->
  total_directories (replay evs s)
  = to_size_t (total_directories s + sum_directories evs)
  /\ total_files (replay evs s) = to_size_t (total_files s + sum_files evs).
Proof.
  induction evs as [| [d l nd nf | d l line] evs IH]; intros s Hr; simpl.
  - rewrite !Z.add_0_r. destruct Hr. rewrite !to_size_t_small; auto.
  - destruct (IH (augment nd nf s)) as [Hd Hf].
    { split; simpl; apply to_size_t_range. }
    rewrite Hd, Hf. simpl. rewrite !to_size_t_add_l, !Z.add_assoc. auto.
  - auto.
Qed.

Lemma accounts_max_depth s s' evs : accounts s s' evs -> max_depth s' = max_depth s.
Proof.
  unfold accounts, statics. intros H. injection H as H _ _.
  rewrite H. apply replay_max_depth.
Qed.

Lemma accounts_refl s : accounts s s [].
Proof. reflexivity. Qed.

Lemma accounts_trans s s' s'' evs evs' :
  accounts s s' evs -> accounts s' s'' evs' -> accounts s s'' (evs ++ evs').
Proof.
  unfold accounts. intros H H'. rewrite replay_app, H'.
  apply replay_statics. exact H.
Qed.

Lemma accounts_render s s' d level line evs :
  accounts s s' evs -> accounts s s' (Render d level line :: evs).
Proof. exact (fun H => H). Qed.

Lemma accounts_visit s s' d level nd nf evs :
  accounts (augment nd nf s) s' evs -> accounts s s' (Visit d level nd nf :: evs).
Proof. exact (fun H => H). Qed.

Lemma accounts_set_err e s s' evs :
  accounts (set_err e s) s' evs -> accounts s s' evs.
Proof.
  unfold accounts. intros ->. apply replay_statics. reflexivity.
Qed.

Section Refinement.

Variable fs : filesystem.

(** One turn of the loop, [self] being known to walk as [walked] says. *)
Lemma for_each_entry_listed (self : path -> Z -> string -> state -> option (list event * state))
    d level segment :
  (forall p l seg s evs s',
      self p l seg s = Some (evs, s') ->
      walked fs (max_depth s) p l seg evs /\ accounts s s' evs) ->
  forall names count s evs s',
    for_each_entry
      (visit_entry fs self d level segment (directories_in fs d) (files_in fs d))
      (map (child d) names) count s = Some (evs, s') ->
    listed fs (max_depth s) d level segment names count evs
    /\ accounts s s' evs.
Proof.
  intros Hself names.
  induction names as [| name rest IH]; intros count s evs s' H; simpl in H.
  - injection H as <- <-. split; [constructor | apply accounts_refl].
  - unfold visit_entry in H. rewrite probe_spec, filename_child in H.
    change (max_depth (set_err (errno_after fs (child d name)) s))
      with (max_depth s) in H.
    fold (line_of fs (max_depth s) d level segment name count) in H.
    fold (expands fs (max_depth s) (child d name) level) in H.
    destruct (expands fs (max_depth s) (child d name) level) eqn:Hx.
    + destruct (self _ _ _ _) as [[sub s1] |] eqn:Hsub; [| discriminate].
      destruct (for_each_entry _ _ _ s1) as [[evs' s2] |] eqn:Hrest; [| discriminate].
      injection H as <- <-.
      apply Hself in Hsub. destruct Hsub as (Hw & Ha).
      apply IH in Hrest. destruct Hrest as (Hl & Ha').
      apply accounts_set_err in Ha.
      assert (Hm : max_depth s1 = max_depth s) by (eapply accounts_max_depth; eassumption).
      rewrite Hm in Hl.
      split.
      * simpl. apply listed_expanded; assumption.
      * simpl. apply accounts_render. eapply accounts_trans; eassumption.
    + destruct (for_each_entry _ _ _ _) as [[evs' s2] |] eqn:Hrest; [| discriminate].
      injection H as <- <-.
      apply IH in Hrest. destruct Hrest as (Hl & Ha').
      apply accounts_set_err in Ha'.
      split.
      * simpl. apply listed_leaf; assumption.
      * simpl. apply accounts_render. exact Ha'.
Qed.

(** A call of [traverse] that returns has walked as [walked] says, and
    has added to the totals the counts of the calls it made. *)
Theorem traverse_walked fuel : forall d level segment s evs s',
  traverse fs fuel d level segment s = Some (evs, s') ->
  walked fs (max_depth s) d level segment evs /\ accounts s s' evs.
Proof.
  induction fuel as [| fuel IH]; intros d level segment s evs s' H; simpl in H.
  - discriminate.
  - destruct (number_of_directories_spec fs d s) as [e1 H1]. rewrite H1 in H.
    destruct (number_of_files_spec fs d (set_err e1 s)) as [e2 H2]. rewrite H2 in H.
    rewrite fs_directory_iterator_spec in H.
    destruct (for_each_entry _ _ _ _) as [[evs' s1] |] eqn:Hloop; [| discriminate].
    injection H as <- <-.
    apply (for_each_entry_listed _ d level segment IH) in Hloop.
    destruct Hloop as (Hl & Ha).
    split.
    + apply walked_directory. exact Hl.
    + apply accounts_visit. apply accounts_set_err in Ha.
      unfold accounts in *. rewrite Ha. apply replay_statics. reflexivity.
Qed.

End Refinement.

(** ** Enough fuel *)

Section Termination.

Variable fs : filesystem.

Lemma for_each_entry_returns
    (self : path -> Z -> string -> state -> option (list event * state))
    d level segment nd nf md :
  ((level =? md) = false ->
   forall p seg s, max_depth s = md ->
     exists evs s', self p (to_int32 (1 + level)) seg s = Some (evs, s')
                    /\ max_depth s' = md) ->
  forall entries count s,
    max_depth s = md ->
    exists evs s',
      for_each_entry (visit_entry fs self d level segment nd nf) entries count s
      = Some (evs, s')
      /\ max_depth s' = md.
Proof.
  intros Hself entries.
  induction entries as [| entry rest IH]; intros count s Hmd; simpl.
  - exists [], s. auto.
  - unfold visit_entry at 1. rewrite probe_spec.
    set (s1 := set_err (errno_after fs entry) s).
    assert (Hmd1 : max_depth s1 = md) by exact Hmd.
    set (line := render_entry _ _ _ _ _ _ _).
    destruct (recurses (probe_of fs entry) level (max_depth s1)) eqn:Hx.
    + assert (Hne : (level =? md) = false).
      { unfold recurses in Hx. rewrite Hmd1 in Hx.
        destruct (level =? md); [| reflexivity].
        rewrite andb_false_r in Hx. discriminate. }
      destruct (Hself Hne entry (segment ++ right line) s1 Hmd1)
        as (sub & s2 & Hsub & Hmd2).
      rewrite Hsub.
      destruct (IH (to_size_t (count + 1)) s2 Hmd2) as (evs & s3 & Hrest & Hmd3).
      rewrite Hrest. eauto.
    + destruct (IH (to_size_t (count + 1)) s1 Hmd1) as (evs & s3 & Hrest & Hmd3).
      rewrite Hrest. eauto.
Qed.

(** A call at a level within the bound returns as soon as the fuel
    covers the levels left. *)
Theorem traverse_returns fuel : forall d level segment s,
  1 <= level <= max_depth s ->
  max_depth s <= INT32_MAX ->
  max_depth s - level < Z.of_nat fuel ->
  exists evs s',
    traverse fs fuel d level segment s = Some (evs, s')
    /\ max_depth s' = max_depth s.
Proof.
  induction fuel as [| fuel IH]; intros d level segment s Hl Hmax Hfuel.
  - simpl in Hfuel. lia.
  - simpl.
    destruct (number_of_directories_spec fs d s) as [e1 H1]. rewrite H1.
    destruct (number_of_files_spec fs d (set_err e1 s)) as [e2 H2]. rewrite H2.
    rewrite fs_directory_iterator_spec.
    set (s1 := set_err _ (augment _ _ _)).
    destruct (for_each_entry_returns (traverse fs fuel) d level segment
                (directories_in fs d) (files_in fs d) (max_depth s)) with
      (entries := entries_of fs d) (count := 0) (s := s1)
      as (evs & s2 & Hloop & Hmd).
    + intros Hne p seg s0 Hmd0.
      apply Z.eqb_neq in Hne.
      assert (Hstep : to_int32 (1 + level) = 1 + level).
      { apply to_int32_small. unfold INT32_MIN, INT32_MAX in *.
        change (2 ^ 31) with 2147483648 in *. lia. }
      rewrite Hstep, <- Hmd0.
      apply IH; rewrite ?Hmd0; lia.
    + reflexivity.
    + rewrite Hloop. eauto.
Qed.

End Termination.

(** ** Shape of the events of a walk *)

Lemma below_refl d : below d d.
Proof. split; [reflexivity | exists []; symmetry; apply app_nil_r]. Qed.

Lemma below_child d name p : below (child d name) p -> below d p.
Proof.
  intros [Hb [suffix Hs]]. split; [exact Hb |].
  exists (name :: suffix). rewrite Hs. simpl. rewrite <- app_assoc. reflexivity.
Qed.

Lemma below_child_strict d name p : below (child d name) p -> p <> d.
Proof.
  intros [_ [suffix Hs]] ->. simpl in Hs.
  apply (f_equal (@length string)) in Hs. rewrite !length_app in Hs. simpl in Hs.
  apply (f_equal Z.of_nat) in Hs. lia.
Qed.

Lemma entry_name_line_of fs md d level segment name count :
  entry_name (line_of fs md d level segment name count) = name.
Proof. reflexivity. Qed.

Lemma flags_line_of fs md d level segment name count :
  flags (line_of fs md d level segment name count) = probe_of fs (child d name).
Proof. reflexivity. Qed.

Section Shape.

Variable fs : filesystem.
Variable md : Z.

(** Every event of a walk is about the directory walked or one under it. *)
Lemma walked_listed_below :
  (forall d level segment evs,
      walked fs md d level segment evs ->
      forall e, In e evs -> below d (event_directory e))
  /\ (forall d level segment names count evs,
         listed fs md d level segment names count evs ->
         forall e, In e evs -> below d (event_directory e)).
Proof.
  apply walked_listed_ind.
  - intros d level segment evs _ IH e [<- | He]; [apply below_refl | auto].
  - intros d level segment count e [].
  - intros d level segment name rest count evs _ _ IH e [<- | He];
      [apply below_refl | auto].
  - intros d level segment name rest count sub evs _ _ IHsub _ IH e [<- | He].
    + apply below_refl.
    + apply in_app_or in He. destruct He as [He | He]; [| auto].
      apply below_child with name. auto.
Qed.

(** The counts a [Visit] records are those of the directory visited. *)
Lemma walked_listed_counts :
  (forall d level segment evs,
      walked fs md d level segment evs ->
      forall p l nd nf, In (Visit p l nd nf) evs ->
        nd = directories_in fs p /\ nf = files_in fs p)
  /\ (forall d level segment names count evs,
         listed fs md d level segment names count evs ->
         forall p l nd nf, In (Visit p l nd nf) evs ->
           nd = directories_in fs p /\ nf = files_in fs p).
Proof.
  apply walked_listed_ind.
  - intros d level segment evs _ IH p l nd nf [H | H]; [| eauto].
    injection H as <- <- <- <-. auto.
  - intros d level segment count p l nd nf [].
  - intros d level segment name rest count evs _ _ IH p l nd nf [H | H];
      [discriminate | eauto].
  - intros d level segment name rest count sub evs _ _ IHsub _ IH p l nd nf [H | H];
      [discriminate |].
    apply in_app_or in H. destruct H; eauto.
Qed.

Hypothesis md_fits : md <= INT32_MAX.

Lemma step_level level :
  1 <= level <= md -> (level =? md) = false ->
  to_int32 (1 + level) = level + 1 /\ 1 <= level + 1 <= md.
Proof.
  intros Hl Hne. apply Z.eqb_neq in Hne. split; [| lia].
  rewrite to_int32_small; [lia |].
  unfold INT32_MIN, INT32_MAX in *. change (2 ^ 31) with 2147483648 in *. lia.
Qed.

Lemma expands_level p level : expands fs md p level = true -> (level =? md) = false.
Proof.
  unfold expands, recurses. destruct (level =? md); [| reflexivity].
  rewrite andb_false_r. discriminate.
Qed.

Lemma levelled_child d name level e :
  levelled md (child d name) (level + 1) e -> levelled md d level e.
Proof.
  unfold levelled. simpl. rewrite length_app. simpl. lia.
Qed.

Lemma walked_listed_levelled :
  (forall d level segment evs,
      walked fs md d level segment evs ->
      1 <= level <= md ->
      forall e, In e evs -> levelled md d level e)
  /\ (forall d level segment names count evs,
         listed fs md d level segment names count evs ->
         1 <= level <= md ->
         forall e, In e evs -> levelled md d level e).
Proof.
  apply walked_listed_ind.
  - intros d level segment evs _ IH Hl e [<- | He]; [| auto].
    unfold levelled. simpl. lia.
  - intros d level segment count _ e [].
  - intros d level segment name rest count evs _ _ IH Hl e [<- | He]; [| auto].
    unfold levelled. simpl. lia.
  - intros d level segment name rest count sub evs Hx _ IHsub _ IH Hl e [<- | He].
    + unfold levelled. simpl. lia.
    + apply in_app_or in He. destruct He as [He | He]; [| auto].
      destruct (step_level level Hl (expands_level _ _ Hx)) as [Hstep Hl'].
      rewrite Hstep in IHsub.
      apply (levelled_child d name). auto.
Qed.

End Shape.

Section Descent.

Variable fs : filesystem.
Variable md : Z.
Hypothesis md_fits : md <= INT32_MAX.

Lemma descent_self d level : descent fs md d level d.
Proof.
  intros pre name post H. exfalso.
  apply (f_equal (@length string)) in H. rewrite !length_app in H. simpl in H.
  apply (f_equal Z.of_nat) in H. lia.
Qed.

Lemma descent_child d level name p :
  expands fs md (child d name) level = true ->
  below (child d name) p ->
  descent fs md (child d name) (level + 1) p ->
  descent fs md d level p.
Proof.
  intros Hx [_ [suffix Hs]] Hsub pre n post H.
  simpl in Hs. rewrite Hs, <- app_assoc in H. apply app_inv_head in H.
  destruct pre as [| a pre]; simpl in H; injection H as <- H.
  - simpl. rewrite Z.add_0_r. exact Hx.
  - specialize (Hsub pre n post). simpl in Hsub.
    rewrite Hs, H in Hsub. specialize (Hsub eq_refl).
    rewrite <- app_assoc in Hsub. simpl in Hsub.
    replace (level + Z.of_nat (length (name :: pre)))
      with (level + 1 + Z.of_nat (length pre)) by (simpl length; lia).
    exact Hsub.
Qed.

Lemma walked_listed_descent :
  (forall d level segment evs,
      walked fs md d level segment evs ->
      1 <= level <= md ->
      forall e, In e evs -> descent fs md d level (event_directory e))
  /\ (forall d level segment names count evs,
         listed fs md d level segment names count evs ->
         1 <= level <= md ->
         forall e, In e evs -> descent fs md d level (event_directory e)).
Proof.
  apply walked_listed_ind.
  - intros d level segment evs _ IH Hl e [<- | He]; [apply descent_self | auto].
  - intros d level segment count _ e [].
  - intros d level segment name rest count evs _ _ IH Hl e [<- | He];
      [apply descent_self | auto].
  - intros d level segment name rest count sub evs Hx Hw IHsub _ IH Hl e [<- | He].
    + apply descent_self.
    + apply in_app_or in He. destruct He as [He | He]; [| auto].
      destruct (step_level md md_fits level Hl (expands_level fs md _ _ Hx))
        as [Hstep Hl'].
      rewrite Hstep in IHsub.
      apply descent_child with name; [exact Hx | | auto].
      exact (proj1 (walked_listed_below fs md) _ _ _ _ Hw e He).
Qed.

(** The walker does go into the entries [expands] tells. *)
Lemma walked_listed_entered :
  (forall d level segment evs,
      walked fs md d level segment evs ->
      forall p l line, In (Render p l line) evs ->
        expands fs md (child p (entry_name line)) l = true ->
        In (Visit (child p (entry_name line)) (to_int32 (1 + l))
              (directories_in fs (child p (entry_name line)))
              (files_in fs (child p (entry_name line)))) evs)
  /\ (forall d level segment names count evs,
         listed fs md d level segment names count evs ->
         forall p l line, In (Render p l line) evs ->
           expands fs md (child p (entry_name line)) l = true ->
           In (Visit (child p (entry_name line)) (to_int32 (1 + l))
                 (directories_in fs (child p (entry_name line)))
                 (files_in fs (child p (entry_name line)))) evs).
Proof.
  apply walked_listed_ind.
  - intros d level segment evs _ IH p l line [H | H] Hx; [discriminate |].
    right. auto.
  - intros d level segment count p l line [].
  - intros d level segment name rest count evs Hleaf _ IH p l line [H | H] Hx.
    + injection H as <- <- <-. rewrite entry_name_line_of in Hx. congruence.
    + right. auto.
  - intros d level segment name rest count sub evs _ Hw IHsub _ IH p l line [H | H] Hx.
    + injection H as <- <- <-. rewrite entry_name_line_of.
      right. apply in_or_app. left. inversion Hw; subst. left. reflexivity.
    + right. apply in_or_app. apply in_app_or in H. destruct H; [left | right]; auto.
Qed.

(** A line is rendered after the call that renders it has augmented the
    totals. *)
Lemma walked_listed_preceded :
  (forall d level segment evs,
      walked fs md d level segment evs ->
      forall pre p l line post, evs = (pre ++ Render p l line :: post)%list ->
        exists nd nf, In (Visit p l nd nf) pre)
  /\ (forall d level segment names count evs,
         listed fs md d level segment names count evs ->
         forall pre p l line post, evs = (pre ++ Render p l line :: post)%list ->
           (p = d /\ l = level) \/ exists nd nf, In (Visit p l nd nf) pre).
Proof.
  apply walked_listed_ind.
  - intros d level segment evs _ IH pre p l line post H.
    destruct pre as [| x pre]; [discriminate |].
    injection H as <- H.
    destruct (IH _ _ _ _ _ H) as [[-> ->] | (nd & nf & Hin)].
    + do 2 eexists. left. reflexivity.
    + exists nd, nf. right. exact Hin.
  - intros d level segment count pre p l line post H.
    destruct pre; discriminate.
  - intros d level segment name rest count evs _ _ IH pre p l line post H.
    destruct pre as [| x pre].
    + injection H as <- <- _ _. left. auto.
    + injection H as <- H.
      destruct (IH _ _ _ _ _ H) as [Hown | (nd & nf & Hin)]; [left; exact Hown |].
      right. exists nd, nf. right. exact Hin.
  - intros d level segment name rest count sub evs _ _ IHsub _ IH pre p l line post H.
    destruct pre as [| x pre].
    + injection H as <- <- _ _. left. auto.
    + injection H as <- H.
      apply app_eq_app in H. destruct H as [mid [[Hsub Hpost] | [Hpre Hevs]]].
      * destruct mid as [| y mid].
        -- simpl in Hpost.
           destruct (IH [] _ _ _ _ (eq_sym Hpost)) as [Hown | (nd & nf & [])].
           left. exact Hown.
        -- injection Hpost as <- _.
           destruct (IHsub _ _ _ _ _ Hsub) as (nd & nf & Hin).
           right. exists nd, nf. right. exact Hin.
      * destruct (IH _ _ _ _ _ Hevs) as [Hown | (nd & nf & Hin)];
          [left; exact Hown |].
        right. exists nd, nf. right. rewrite Hpre. apply in_or_app. right. exact Hin.
Qed.

(** Every line rendered is the line of an entry of the directory it is
    rendered for. *)
Lemma walked_listed_lines :
  (forall d level segment evs,
      walked fs md d level segment evs ->
      forall p l line, In (Render p l line) evs ->
        exists seg name count,
          line = line_of fs md p l seg name count /\ In name (listing fs p))
  /\ (forall d level segment names count evs,
         listed fs md d level segment names count evs ->
         forall p l line, In (Render p l line) evs ->
           exists seg name count',
             line = line_of fs md p l seg name count'
             /\ (In name (listing fs p) \/ p = d /\ In name names)).
Proof.
  apply walked_listed_ind.
  - intros d level segment evs _ IH p l line [H | H]; [discriminate |].
    destruct (IH _ _ _ H) as (seg & name & count & Hline & [Hin | [-> Hin]]);
      exists seg, name, count; auto.
  - intros d level segment count p l line [].
  - intros d level segment name rest count evs _ _ IH p l line [H | H].
    + injection H as <- <- <-. exists segment, name, count.
      split; [reflexivity | right; split; [reflexivity | left; reflexivity]].
    + destruct (IH _ _ _ H) as (seg & n & c & Hline & [Hin | [-> Hin]]);
        exists seg, n, c; split; auto.
      right. split; [reflexivity | right; exact Hin].
  - intros d level segment name rest count sub evs _ _ IHsub _ IH p l line [H | H].
    + injection H as <- <- <-. exists segment, name, count.
      split; [reflexivity | right; split; [reflexivity | left; reflexivity]].
    + apply in_app_or in H. destruct H as [H | H].
      * destruct (IHsub _ _ _ H) as (seg & n & c & Hline & Hin).
        exists seg, n, c. auto.
      * destruct (IH _ _ _ H) as (seg & n & c & Hline & [Hin | [-> Hin]]);
          exists seg, n, c; split; auto.
        right. split; [reflexivity | right; exact Hin].
Qed.

End Descent.

(** ** The lines of one directory *)

Lemma path_eqb_eq p q : path_eqb p q = true <-> p = q.
Proof.
  unfold path_eqb. destruct p as [b r], q as [b' r']. simpl.
  destruct (list_eq_dec string_dec r r') as [-> | Hne].
  - rewrite andb_true_r, String.eqb_eq. split; [intros ->; reflexivity |].
    intros H. injection H as ->. reflexivity.
  - rewrite andb_false_r. split; [discriminate |].
    intros H. injection H as _ ->. contradiction.
Qed.

Lemma path_eqb_refl p : path_eqb p p = true.
Proof. apply path_eqb_eq. reflexivity. Qed.

Lemma own_lines_app d evs evs' :
  own_lines d (evs ++ evs') = (own_lines d evs ++ own_lines d evs')%list.
Proof.
  induction evs as [| [p l nd nf | p l line] evs IH]; simpl; auto.
  destruct (path_eqb p d); simpl; congruence.
Qed.

Lemma own_lines_elsewhere d evs :
  (forall e, In e evs -> event_directory e <> d) -> own_lines d evs = [].
Proof.
  induction evs as [| [p l nd nf | p l line] evs IH]; intros H; simpl; auto.
  - apply IH. intros e He. apply H. right. exact He.
  - destruct (path_eqb p d) eqn:Hp.
    + apply path_eqb_eq in Hp. exfalso. apply (H (Render p l line)); [left |]; auto.
    + apply IH. intros e He. apply H. right. exact He.
Qed.

Lemma walked_listed_own_lines fs md :
  (forall d level segment evs,
      walked fs md d level segment evs ->
      own_lines d evs = lines_from fs md d level segment (listing fs d) 0)
  /\ (forall d level segment names count evs,
         listed fs md d level segment names count evs ->
         own_lines d evs = lines_from fs md d level segment names count).
Proof.
  apply walked_listed_ind.
  - intros d level segment evs _ IH. exact IH.
  - reflexivity.
  - intros d level segment name rest count evs _ _ IH. simpl.
    rewrite path_eqb_refl, IH. reflexivity.
  - intros d level segment name rest count sub evs _ Hw _ _ IH. simpl.
    rewrite path_eqb_refl, own_lines_app, IH.
    rewrite own_lines_elsewhere; [reflexivity |].
    intros e He. apply below_child_strict with name.
    exact (proj1 (walked_listed_below fs md) _ _ _ _ Hw e He).
Qed.

Lemma lines_from_names fs md d level segment names : forall count,
  map entry_name (lines_from fs md d level segment names count) = names.
Proof.
  induction names as [| name rest IH]; intros count; simpl; [| rewrite IH]; reflexivity.
Qed.

Lemma lines_from_nth fs md d level segment names : forall count i line,
  nth_error (lines_from fs md d level segment names count) i = Some line ->
  exists name,
    nth_error names i = Some name
    /\ line = line_of fs md d level segment name (to_size_t (count + Z.of_nat i))
    /\ position line = to_size_t (count + Z.of_nat i + 1).
Proof.
  induction names as [| name rest IH]; intros count i line H.
  - destruct i; discriminate.
  - destruct i as [| i]; simpl in H.
    + injection H as <-. exists name. simpl nth_error. rewrite Z.add_0_r.
      unfold line_of, render_entry. simpl. rewrite !to_size_t_add_l. auto.
    + destruct (IH _ _ _ H) as (n & Hn & Hline & Hpos).
      exists n. simpl nth_error.
      rewrite <- Z.add_assoc in Hpos.
      rewrite to_size_t_add_l in Hline, Hpos.
      replace (count + Z.of_nat (S i)) with (count + 1 + Z.of_nat i) by lia.
      replace (count + 1 + Z.of_nat i + 1) with (count + 1 + (Z.of_nat i + 1)) by lia.
      auto.
Qed.

(** ** The two counts partition the listing *)

Lemma filter_partition {A : Type} (f : A -> bool) (l : list A) :
  (length (filter f l) + length (filter (fun a => negb (f a)) l) = length l)%nat.
Proof.
  induction l as [| a l IH]; simpl; [reflexivity |].
  destruct (f a); simpl; lia.
Qed.

Lemma counts_partition fs d :
  to_size_t (directories_in fs d + files_in fs d)
  = to_size_t (Z.of_nat (length (listing fs d))).
Proof.
  unfold directories_in, files_in.
  rewrite to_size_t_add_l, to_size_t_add_r, <- Nat2Z.inj_add, filter_partition.
  unfold entries_of. rewrite length_map. reflexivity.
Qed.

Lemma counts_exact fs d :
  Z.of_nat (length (listing fs d)) < SIZE_MODULUS ->
  directories_in fs d = Z.of_nat (length (filter (directory_at fs) (entries_of fs d)))
  /\ files_in fs d
     = Z.of_nat (length (filter (fun p => negb (directory_at fs p)) (entries_of fs d)))
  /\ directories_in fs d + files_in fs d = Z.of_nat (length (listing fs d)).
Proof.
  intros Hlen.
  pose proof (filter_partition (directory_at fs) (entries_of fs d)) as Hp.
  unfold entries_of in Hp at 3. rewrite length_map in Hp.
  unfold directories_in, files_in.
  rewrite !to_size_t_small by lia. repeat split. lia.
Qed.

(** ** Runs of [main] *)

Lemma atoi_non_numeric s : non_numeric s = true -> atoi s = 0.
Proof.
  unfold non_numeric, atoi, strtol.
  assert (Hd : forall t, negb (starts_with_digit t) = true -> digits t 0 = 0).
  { intros [| c t]; simpl; [reflexivity |].
    destruct (digit_value c); [discriminate | reflexivity]. }
  destruct (skip_spaces s) as [| c rest]; [reflexivity |].
  destruct (Ascii.eqb c "-"); [| destruct (Ascii.eqb c "+")];
    intros H; apply Hd in H; rewrite H; reflexivity.
Qed.

Lemma parse_depth_max_depth argv s :
  max_depth s = 1 ->
  max_depth (parse_depth argv s)
  = if 3 <=? Z.of_nat (length argv) then Z.max 1 (atoi (nth 2 argv "")) else 1.
Proof.
  intros Hs. unfold parse_depth.
  destruct (3 <=? Z.of_nat (length argv)); [| exact Hs].
  simpl. destruct (Z.ltb_spec (atoi (nth 2 argv "")) 1); lia.
Qed.

Lemma effective_depth_bounds argv : 1 <= effective_depth argv <= INT32_MAX.
Proof.
  unfold effective_depth. rewrite parse_depth_max_depth by reflexivity.
  destruct (3 <=? Z.of_nat (length argv)).
  - pose proof (to_int32_range (strtol (nth 2 argv ""))) as H.
    unfold atoi. unfold INT32_MIN, INT32_MAX in *.
    change (2 ^ 31) with 2147483648 in *. lia.
  - unfold INT32_MAX. change (2 ^ 31) with 2147483648. lia.
Qed.

Lemma started_statics argv :
  statics (started argv) = statics (parse_depth argv initial_state).
Proof.
  reflexivity.
Qed.

Lemma started_max_depth argv : max_depth (started argv) = effective_depth argv.
Proof.
  reflexivity.
Qed.

Section Runs.

Variable fs : filesystem.

Lemma fs_exists_spec p s :
  exists e, fs_exists fs p s = (present fs p, set_err e s).
Proof.
  unfold fs_exists, bind, status, ret, present.
  destruct (stat fs p) as [t | e]; [exists 0; reflexivity |].
  unfold status_of_errno.
  destruct ((e =? ENOENT) || (e =? ENOTDIR)), (e =? EOVERFLOW); eexists; reflexivity.
Qed.

Lemma directory_errno p : directory_at fs p = true -> errno_of (stat fs p) = 0.
Proof.
  unfold directory_at. destruct (stat fs p); [reflexivity | discriminate].
Qed.

Lemma directory_is_present p : directory_at fs p = true -> present fs p = true.
Proof.
  unfold directory_at, present. destruct (stat fs p); [reflexivity | discriminate].
Qed.

(** The two ways a run goes: the start-up checks fail and nothing is
    traversed, or the root is walked from level 1. *)
Lemma main_inversion argv r :
  main fs argv = Some r ->
  (directory_at fs (root_of argv) = false
   /\ exit_status r = EXIT_FAILURE /\ stdout r = "" /\ trace r = []
   /\ statics (final r) = statics initial_state)
  \/ (directory_at fs (root_of argv) = true
      /\ exit_status r = EXIT_SUCCESS
      /\ stderr r = ""
      /\ traverse fs (Z.to_nat (effective_depth argv)) (root_of argv) 1 "" (started argv)
         = Some (trace r, final r)
      /\ stdout r
         = c_str (root_of argv) ++ NEWLINE ++ printed (trace r) ++ summary (final r)).
Proof.
  unfold main. destruct (fs_exists_spec (root_of argv) initial_state) as [e ->].
  rewrite fs_is_directory_spec. cbv beta iota.
  pose proof (directory_is_present (root_of argv)) as Hpresent.
  destruct (present fs (root_of argv)); simpl negb; cbv iota.
  - destruct (directory_at fs (root_of argv)) eqn:Hd; simpl negb; cbv iota; intros H.
    + right. rewrite (directory_errno _ Hd) in H.
      change (parse_depth argv _) with (started argv) in H.
      rewrite started_max_depth in H.
      destruct (traverse _ _ _ _ _ _) as [[evs s'] |] eqn:Ht; [| discriminate].
      injection H as <-. simpl. auto.
    + injection H as <-. left. repeat split; reflexivity.
  - intros H. injection H as <-. left.
    destruct (directory_at fs (root_of argv)); [discriminate (Hpresent eq_refl) |].
    repeat split; reflexivity.
Qed.

(** [main] always returns: the fuel it hands to [traverse] suffices. *)
Theorem main_returns argv : exists r, main fs argv = Some r.
Proof.
  unfold main. destruct (fs_exists_spec (root_of argv) initial_state) as [e ->].
  rewrite fs_is_directory_spec. cbv beta iota.
  destruct (present fs (root_of argv)); simpl negb; cbv iota;
    [| eexists; reflexivity].
  destruct (directory_at fs (root_of argv)) eqn:Hd; simpl negb; cbv iota;
    [| eexists; reflexivity].
  rewrite (directory_errno _ Hd).
  change (parse_depth argv _) with (started argv). rewrite started_max_depth.
  pose proof (effective_depth_bounds argv) as Hb.
  destruct (traverse_returns fs (Z.to_nat (effective_depth argv)) (root_of argv) 1 ""
              (started argv)) as (evs & s' & Ht & _).
  - rewrite started_max_depth. lia.
  - rewrite started_max_depth. lia.
  - rewrite started_max_depth, Z2Nat.id; lia.
  - rewrite Ht. eexists. reflexivity.
Qed.

(** What a run that traversed knows about its events. *)
Lemma main_walked argv r :
  main fs argv = Some r ->
  trace r = []
  \/ (max_depth (final r) = effective_depth argv
      /\ walked fs (effective_depth argv) (root_of argv) 1 "" (trace r)
      /\ statics (final r) = statics (replay (trace r) (parse_depth argv initial_state))).
Proof.
  intros H. apply main_inversion in H.
  destruct H as [(_ & _ & _ & Ht & _) | (_ & _ & _ & Ht & _)]; [left; exact Ht | right].
  apply traverse_walked in Ht. destruct Ht as [Hw Ha].
  rewrite started_max_depth in Hw.
  split; [| split; [exact Hw |]].
  - apply accounts_max_depth in Ha. rewrite Ha. apply started_max_depth.
  - unfold accounts in Ha. rewrite Ha. apply replay_statics, started_statics.
Qed.

End Runs.

(** ** When the walker goes into an entry *)

Section Guard.

Variable fs : filesystem.

Lemma access_denied_directory p :
  directory_at fs p = true ->
  access_denied (probe_of fs p) = permission_denied fs p.
Proof.
  intros Hd. unfold probe_of, errno_after, permission_denied.
  cbn [access_denied]. rewrite Hd.
  destruct (opendir fs p) as [names | e]; cbn [errno_of];
    [reflexivity | apply Z.eqb_sym].
Qed.

(** Line 126, read on the file system. *)
Lemma expands_iff md p level :
  expands fs md p level = true
  <-> directory_at fs p = true /\ symlink_at fs p = false
      /\ permission_denied fs p = false /\ level <> md.
Proof.
  unfold expands, recurses. change (is_directory (probe_of fs p)) with (directory_at fs p).
  change (is_symlink (probe_of fs p)) with (symlink_at fs p).
  destruct (directory_at fs p) eqn:Hd.
  - rewrite (access_denied_directory p Hd).
    destruct (symlink_at fs p), (permission_denied fs p), (Z.eqb_spec level md);
      simpl; intuition congruence.
  - simpl. intuition congruence.
Qed.

Variable md : Z.
Hypothesis md_fits : md <= INT32_MAX.

(** A directory other than the one walked is visited only if the walker
    went into it, from the level above. *)
Lemma visited_expanded d level segment evs :
  walked fs md d level segment evs ->
  1 <= level <= md ->
  forall e, In e evs -> event_directory e <> d ->
    expands fs md (event_directory e) (event_level e - 1) = true
    \/ exists line, e = Render (event_directory e) (event_level e) line.
Proof.
  intros Hw Hl e He Hne.
  destruct e as [p l nd nf | p l line]; [left | right; eexists; reflexivity].
  simpl in *.
  destruct (proj1 (walked_listed_below fs md) _ _ _ _ Hw _ He) as [Hb [suffix Hs]].
  pose proof (proj1 (walked_listed_levelled fs md md_fits) _ _ _ _ Hw Hl _ He) as [Hlev _].
  pose proof (proj1 (walked_listed_descent fs md md_fits) _ _ _ _ Hw Hl _ He) as Hdesc.
  simpl in *.
  destruct (exists_last (l := suffix)) as (pre & name & ->).
  { intros ->. apply Hne. destruct p, d. simpl in *. rewrite app_nil_r in Hs. congruence. }
  specialize (Hdesc pre name [] Hs).
  replace {| base := base d; rel := rel d ++ pre ++ [name] |} with p in Hdesc
    by (destruct p; simpl in *; congruence).
  replace (l - 1) with (level + Z.of_nat (length pre)); [exact Hdesc |].
  rewrite Hlev, Hs, !length_app. simpl. lia.
Qed.

(** Nothing happens at or under an entry the walker does not go into. *)
Lemma unexpanded_untouched d level segment evs :
  walked fs md d level segment evs ->
  1 <= level <= md ->
  forall p l line, In (Render p l line) evs ->
    expands fs md (child p (entry_name line)) l = false ->
    forall e, In e evs -> ~ below (child p (entry_name line)) (event_directory e).
Proof.
  intros Hw Hl p l line Hr Hx e He [Hb [suffix Hs]].
  destruct (proj1 (walked_listed_below fs md) _ _ _ _ Hw _ Hr) as [Hpb [psuffix Hps]].
  pose proof (proj1 (walked_listed_levelled fs md md_fits) _ _ _ _ Hw Hl _ Hr) as [Hlev _].
  pose proof (proj1 (walked_listed_descent fs md md_fits) _ _ _ _ Hw Hl _ He) as Hdesc.
  simpl in *.
  specialize (Hdesc psuffix (entry_name line) suffix).
  rewrite Hs, Hps, <- !app_assoc in Hdesc. specialize (Hdesc eq_refl).
  replace {| base := base d; rel := rel d ++ psuffix ++ [entry_name line] |}
    with (child p (entry_name line)) in Hdesc.
  - replace (level + Z.of_nat (length psuffix)) with l in Hdesc; [congruence |].
    rewrite Hlev, Hps, length_app. lia.
  - unfold child. rewrite Hps, Hpb, <- app_assoc. reflexivity.
Qed.

End Guard.

(** ** The walk of a run *)

Lemma sums_nonnegative evs :
  (forall p l nd nf, In (Visit p l nd nf) evs -> 0 <= nd /\ 0 <= nf) ->
  0 <= sum_directories evs /\ 0 <= sum_files evs.
Proof.
  induction evs as [| [p l nd nf | p l line] evs IH]; intros H; simpl.
  - lia.
  - destruct (H p l nd nf (or_introl eq_refl)).
    destruct IH; [intros; eapply H; right; eassumption | lia].
  - apply IH. intros; eapply H; right; eassumption.
Qed.

Lemma listed_visits_strict fs md :
  (forall d level segment evs, walked fs md d level segment evs -> True)
  /\ (forall d level segment names count evs,
         listed fs md d level segment names count evs ->
         forall p l nd nf, In (Visit p l nd nf) evs -> p <> d).
Proof.
  apply walked_listed_ind.
  - auto.
  - intros d level segment count p l nd nf [].
  - intros d level segment name rest count evs _ _ IH p l nd nf [H | H];
      [discriminate | eauto].
  - intros d level segment name rest count sub evs _ Hw _ _ IH p l nd nf [H | H];
      [discriminate |].
    apply in_app_or in H. destruct H as [H | H]; [| eauto].
    apply below_child_strict with name.
    exact (proj1 (walked_listed_below fs md) _ _ _ _ Hw _ H).
Qed.

Lemma walked_head fs md d level segment evs :
  walked fs md d level segment evs ->
  exists rest,
    evs = Visit d level (directories_in fs d) (files_in fs d) :: rest
    /\ listed fs md d level segment (listing fs d) 0 rest.
Proof. destruct 1. eauto. Qed.

(** C10. Every call of [traverse] a run of [main] makes is at a level
    between 1 and the depth bound, itself at least 1; there, the test
    [level != max_depth] of line 126 is the test [level < max_depth],
    and the level [1 + level] handed to a recursive call neither wraps
    nor passes the bound. *)
Theorem level_within_bound fs argv r d l nd nf :
  main fs argv = Some r ->
  In (Visit d l nd nf) (trace r) ->
  1 <= max_depth (final r)
  /\ 1 <= l <= max_depth (final r)
  /\ negb (l =? max_depth (final r)) = (l <? max_depth (final r))
  /\ (l <> max_depth (final r) ->
      to_int32 (1 + l) = l + 1 /\ l + 1 <= max_depth (final r)).
Proof.
  intros Hmain Hin.
  destruct (main_walked fs argv r Hmain) as [Hnil | (Hmd & Hw & _)];
    [rewrite Hnil in Hin; destruct Hin |].
  pose proof (effective_depth_bounds argv) as Hb. rewrite Hmd.
  pose proof (proj1 (walked_listed_levelled fs _ (proj2 Hb)) _ _ _ _ Hw
                ltac:(lia) _ Hin) as [_ Hl].
  cbn [event_level] in Hl.
  split; [lia | split; [lia | split]].
  - destruct (Z.eqb_spec l (effective_depth argv)), (Z.ltb_spec l (effective_depth argv));
      simpl; lia.
  - intros Hne. apply Z.eqb_neq in Hne.
    destruct (step_level _ (proj2 Hb) l ltac:(lia) Hne). lia.
Qed.

(** C2. In a run of [main], the walker calls [traverse] on an entry it
    has rendered exactly when the entry is a directory, is not a
    symbolic link, can be enumerated and was met at a level strictly
    below the depth bound; the call is at the next level.  Hence every
    line rendered is that of an entry met at a level between 1 and the
    bound, and nothing is ever visited or rendered at or under an entry
    met at the bound itself. *)
Theorem recursion_guard fs argv r d l line :
  main fs argv = Some r ->
  In (Render d l line) (trace r) ->
  ((exists l' nd nf, In (Visit (child d (entry_name line)) l' nd nf) (trace r))
   <-> directory_at fs (child d (entry_name line)) = true
       /\ symlink_at fs (child d (entry_name line)) = false
       /\ permission_denied fs (child d (entry_name line)) = false
       /\ l < max_depth (final r))
  /\ (forall l' nd nf,
         In (Visit (child d (entry_name line)) l' nd nf) (trace r) -> l' = l + 1)
  /\ 1 <= l <= max_depth (final r)
  /\ (l = max_depth (final r) ->
      forall e, In e (trace r) ->
        ~ below (child d (entry_name line)) (event_directory e)).
Proof.
  intros Hmain Hin.
  destruct (main_walked fs argv r Hmain) as [Hnil | (Hmd & Hw & _)];
    [rewrite Hnil in Hin; destruct Hin |].
  pose proof (effective_depth_bounds argv) as Hb. rewrite Hmd.
  set (md := effective_depth argv) in *.
  set (entry := child d (entry_name line)).
  assert (H1 : 1 <= 1 <= md) by lia.
  pose proof (proj1 (walked_listed_levelled fs md (proj2 Hb)) _ _ _ _ Hw H1 _ Hin)
    as [Hlev Hl].
  cbn [event_level event_directory root_of rel length] in Hlev, Hl.
  assert (Hvisit : forall l' nd nf, In (Visit entry l' nd nf) (trace r) ->
                     l' = l + 1 /\ expands fs md entry l = true).
  { intros l' nd nf Hv.
    pose proof (proj1 (walked_listed_levelled fs md (proj2 Hb)) _ _ _ _ Hw H1 _ Hv)
      as [Hlev' _].
    unfold entry in Hlev'.
    cbn [event_level event_directory root_of rel child length] in Hlev'.
    rewrite length_app in Hlev'. cbn [length] in Hlev'.
    assert (Hl' : l' = l + 1) by lia. split; [exact Hl' |].
    destruct (visited_expanded fs md (proj2 Hb) _ _ _ _ Hw H1 _ Hv) as [Hx | [? Hx]];
      [| | discriminate].
    - simpl. intros Heq. apply (child_not_root d (entry_name line)).
      fold entry. rewrite Heq. reflexivity.
    - simpl in Hx. replace (l' - 1) with l in Hx by lia. exact Hx. }
  split; [split |]; [| | split; [| split]].
  - intros (l' & nd & nf & Hv). destruct (Hvisit _ _ _ Hv) as [_ Hx].
    apply expands_iff in Hx. intuition lia.
  - intros (Hd & Hs & Hp & Hlt).
    assert (Hx : expands fs md entry l = true) by (apply expands_iff; intuition lia).
    pose proof (proj1 (walked_listed_entered fs md) _ _ _ _ Hw _ _ _ Hin Hx) as Hv.
    eauto.
  - intros l' nd nf Hv. apply (Hvisit _ _ _ Hv).
  - lia.
  - intros Heq. apply (unexpanded_untouched fs md (proj2 Hb) _ _ _ _ Hw H1 _ _ _ Hin).
    destruct (expands fs md (child d (entry_name line)) l) eqn:Hx; [| reflexivity].
    apply expands_iff in Hx. intuition lia.
Qed.

(** C5. In a run of [main], an entry that is a symbolic link is
    rendered and left at that: [traverse] is never called on it and
    nothing is rendered under it, whatever its target and whatever the
    level it is met at. *)
Theorem symlinks_are_leaves fs argv r d l line :
  main fs argv = Some r ->
  In (Render d l line) (trace r) ->
  symlink_at fs (child d (entry_name line)) = true ->
  is_symlink (flags line) = true
  /\ forall e, In e (trace r) ->
       ~ below (child d (entry_name line)) (event_directory e).
Proof.
  intros Hmain Hin Hs.
  destruct (main_walked fs argv r Hmain) as [Hnil | (Hmd & Hw & _)];
    [rewrite Hnil in Hin; destruct Hin |].
  pose proof (effective_depth_bounds argv) as Hb.
  split.
  - destruct (proj1 (walked_listed_lines fs _) _ _ _ _ Hw _ _ _ Hin)
      as (seg & name & count & -> & _).
    rewrite flags_line_of. exact Hs.
  - apply (unexpanded_untouched fs _ (proj2 Hb) _ _ _ _ Hw ltac:(lia) _ _ _ Hin).
    destruct (expands fs _ (child d (entry_name line)) l) eqn:Hx; [| reflexivity].
    apply expands_iff in Hx. destruct Hx as (_ & Hx & _). congruence.
Qed.

(** C1. After a complete run, each total is the sum, over the calls of
    [traverse], of the count the Counter gave for the directory of the
    call, provided the sum fits [std::size_t]: the calls are the one on
    the root followed by those on directories the walker went into, the
    counts of a call are added once, in the order of the calls, and
    before any line of that call is rendered. *)
Theorem totals_sum_over_visits fs argv r :
  main fs argv = Some r ->
  exit_status r = EXIT_SUCCESS ->
  sum_directories (trace r) < SIZE_MODULUS ->
  sum_files (trace r) < SIZE_MODULUS ->
  total_directories (final r) = sum_directories (trace r)
  /\ total_files (final r) = sum_files (trace r)
  /\ (exists rest,
         trace r
         = Visit (root_of argv) 1
             (fst (number_of_directories_in_directory fs (root_of argv) initial_state))
             (fst (number_of_files_in_directory fs (root_of argv) initial_state))
           :: rest
         /\ forall p l nd nf, In (Visit p l nd nf) rest ->
              expands fs (max_depth (final r)) p (l - 1) = true)
  /\ (forall p l nd nf s, In (Visit p l nd nf) (trace r) ->
        nd = fst (number_of_directories_in_directory fs p s)
        /\ nf = fst (number_of_files_in_directory fs p s))
  /\ statics (final r) = statics (replay (trace r) (parse_depth argv initial_state))
  /\ (forall pre p l line post,
         trace r = (pre ++ Render p l line :: post)%list ->
         exists nd nf, In (Visit p l nd nf) pre).
Proof.
  intros Hmain Hexit Hsd Hsf.
  assert (Hcount : forall p s,
             fst (number_of_directories_in_directory fs p s) = directories_in fs p
             /\ fst (number_of_files_in_directory fs p s) = files_in fs p).
  { intros p s.
    destruct (number_of_directories_spec fs p s) as [e1 ->].
    destruct (number_of_files_spec fs p s) as [e2 ->]. auto. }
  destruct (main_inversion fs argv r Hmain) as [(_ & Hfail & _) | (_ & _ & _ & Ht & _)];
    [rewrite Hfail in Hexit; discriminate |].
  destruct (main_walked fs argv r Hmain) as [Hnil | (Hmd & Hw & Hst)].
  { apply traverse_walked in Ht. destruct Ht as [Hw _].
    rewrite Hnil in Hw. inversion Hw. }
  pose proof (effective_depth_bounds argv) as Hb.
  pose proof (proj1 (walked_listed_counts fs _) _ _ _ _ Hw) as Hcounts.
  assert (Hnn : 0 <= sum_directories (trace r) /\ 0 <= sum_files (trace r)).
  { apply sums_nonnegative. intros p l nd nf Hin.
    destruct (Hcounts _ _ _ _ Hin) as [-> ->].
    split; apply to_size_t_range. }
  assert (Htot : total_directories (final r) = sum_directories (trace r)
                 /\ total_files (final r) = sum_files (trace r)).
  { unfold statics in Hst. injection Hst as _ Hd Hf.
    destruct (replay_totals (trace r) (parse_depth argv initial_state)) as [Hd' Hf'].
    { unfold parse_depth, ranged. destruct (3 <=? _); simpl; unfold SIZE_MODULUS; lia. }
    rewrite Hd, Hf, Hd', Hf'.
    replace (total_directories (parse_depth argv initial_state)) with 0
      by (unfold parse_depth; destruct (3 <=? _); reflexivity).
    replace (total_files (parse_depth argv initial_state)) with 0
      by (unfold parse_depth; destruct (3 <=? _); reflexivity).
    rewrite !to_size_t_small by lia. lia. }
  destruct Htot as [Hd Hf].
  split; [exact Hd | split; [exact Hf | split; [| split; [| split; [exact Hst |]]]]].
  - destruct (walked_head _ _ _ _ _ _ Hw) as (rest & Heq & Hlisted).
    exists rest. rewrite (proj1 (Hcount _ _)), (proj2 (Hcount _ _)).
    split; [exact Heq |].
    intros p l nd nf Hin. rewrite Hmd.
    assert (Hin' : In (Visit p l nd nf) (trace r)) by (rewrite Heq; right; exact Hin).
    destruct (visited_expanded fs _ (proj2 Hb) _ _ _ _ Hw ltac:(lia) _ Hin')
      as [Hx | [? Hx]]; [| exact Hx | discriminate].
    simpl. exact (proj2 (listed_visits_strict fs _) _ _ _ _ _ _ Hlisted _ _ _ _ Hin).
  - intros p l nd nf s Hin. destruct (Hcounts _ _ _ _ Hin) as [-> ->].
    split; symmetry; apply Hcount.
  - intros pre p l line post Heq.
    exact (proj1 (walked_listed_preceded fs _) _ _ _ _ Hw _ _ _ _ _ Heq).
Qed.

(** ** Directories that cannot be read *)

Lemma render_entry_directory segment level md name q count total :
  is_symlink q = false ->
  is_directory q = true ->
  text (render_entry segment level md name q count total)
  = if access_denied q && negb (level =? md)
    then segment ++ left (render_entry segment level md name q count total) ++ " "
         ++ ESC ++ "[94m" ++ name ++ ESC ++ "[0m [access denied]" ++ NEWLINE
    else segment ++ left (render_entry segment level md name q count total) ++ " "
         ++ ESC ++ "[94m" ++ name ++ ESC ++ "[0m" ++ NEWLINE.
Proof.
  intros Hs Hd. unfold render_entry. cbn [text left]. rewrite Hs, Hd.
  destruct (access_denied q && negb (level =? md)); reflexivity.
Qed.

Lemma unreadable_counts fs p :
  permission_denied fs p = true -> directories_in fs p = 0 /\ files_in fs p = 0.
Proof.
  unfold permission_denied, directories_in, files_in, entries_of, listing.
  destruct (opendir fs p); [discriminate | auto].
Qed.

(** C3, amended. In a run of [main], a directory that is not a symbolic
    link and whose enumeration fails for lack of permission is rendered
    with the marker unless it is met at the depth bound, where it is
    rendered as any directory.  [traverse] is never called on it, so
    nothing is added to the totals for it or for anything under it (the
    Counter would find nothing in it anyway); it is counted once, as a
    directory of its parent, in the counts its parent added before
    rendering it. *)
Theorem denied_directory fs argv r d l line :
  main fs argv = Some r ->
  In (Render d l line) (trace r) ->
  directory_at fs (child d (entry_name line)) = true ->
  symlink_at fs (child d (entry_name line)) = false ->
  permission_denied fs (child d (entry_name line)) = true ->
  (exists segment,
      text line
      = if l =? max_depth (final r)
        then segment ++ left line ++ " " ++ ESC ++ "[94m" ++ entry_name line
             ++ ESC ++ "[0m" ++ NEWLINE
        else segment ++ left line ++ " " ++ ESC ++ "[94m" ++ entry_name line
             ++ ESC ++ "[0m [access denied]" ++ NEWLINE)
  /\ (forall e, In e (trace r) ->
        ~ below (child d (entry_name line)) (event_directory e))
  /\ (forall s,
        fst (number_of_directories_in_directory fs (child d (entry_name line)) s) = 0
        /\ fst (number_of_files_in_directory fs (child d (entry_name line)) s) = 0)
  /\ In (child d (entry_name line))
       (filter (fun p => fst (fs_is_directory fs p initial_state))
          (fst (fs_directory_iterator fs d initial_state)))
  /\ (exists pre post,
         trace r = (pre ++ Render d l line :: post)%list
         /\ In (Visit d l
                  (fst (number_of_directories_in_directory fs d initial_state))
                  (fst (number_of_files_in_directory fs d initial_state))) pre).
Proof.
  intros Hmain Hin Hd Hs Hp.
  destruct (main_walked fs argv r Hmain) as [Hnil | (Hmd & Hw & _)];
    [rewrite Hnil in Hin; destruct Hin |].
  pose proof (effective_depth_bounds argv) as Hb.
  destruct (proj1 (walked_listed_lines fs _) _ _ _ _ Hw _ _ _ Hin)
    as (seg & name & count & Hline & Hname).
  assert (Hentry : entry_name line = name) by (rewrite Hline; reflexivity).
  split; [| split; [| split; [| split]]].
  - exists seg. rewrite Hmd. rewrite Hline at 1. unfold line_of.
    rewrite render_entry_directory.
    + fold (line_of fs (effective_depth argv) d l seg name count). rewrite <- Hline.
      rewrite <- Hentry, access_denied_directory, Hp by exact Hd.
      destruct (l =? effective_depth argv); reflexivity.
    + rewrite <- Hentry. exact Hs.
    + rewrite <- Hentry. exact Hd.
  - apply (unexpanded_untouched fs _ (proj2 Hb) _ _ _ _ Hw ltac:(lia) _ _ _ Hin).
    destruct (expands fs _ (child d (entry_name line)) l) eqn:Hx; [| reflexivity].
    apply expands_iff in Hx. destruct Hx as (_ & _ & Hx & _). congruence.
  - intros s.
    destruct (number_of_directories_spec fs (child d (entry_name line)) s) as [e1 ->].
    destruct (number_of_files_spec fs (child d (entry_name line)) s) as [e2 ->].
    apply unreadable_counts. exact Hp.
  - rewrite fs_directory_iterator_spec. cbn [fst].
    apply filter_In. split.
    + unfold entries_of. apply in_map. rewrite Hentry. exact Hname.
    + rewrite fs_is_directory_spec. exact Hd.
  - destruct (in_split _ _ Hin) as (pre & post & Heq).
    exists pre, post. split; [exact Heq |].
    destruct (proj1 (walked_listed_preceded fs _) _ _ _ _ Hw _ _ _ _ _ Heq)
      as (nd & nf & Hv).
    assert (Hv' : In (Visit d l nd nf) (trace r))
      by (rewrite Heq; apply in_or_app; left; exact Hv).
    destruct (proj1 (walked_listed_counts fs _) _ _ _ _ Hw _ _ _ _ Hv') as [-> ->].
    destruct (number_of_directories_spec fs d initial_state) as [e1 ->].
    destruct (number_of_files_spec fs d initial_state) as [e2 ->].
    exact Hv.
Qed.

(** ** The last child *)

Lemma branches_differ : LAST_BRANCH <> INNER_BRANCH.
Proof. discriminate. Qed.

Lemma left_line_of fs md d level segment name count :
  left (line_of fs md d level segment name count)
  = if to_size_t (count + 1) =? to_size_t (directories_in fs d + files_in fs d)
    then LAST_BRANCH else INNER_BRANCH.
Proof. reflexivity. Qed.

(** C4, amended. Among the lines a call of [traverse] renders for the
    children of its directory there is one per name listed, in listing
    order; the line at position [i], counted from 1, has the terminal
    branch exactly when [i] is the sum of the two counts of the Counter,
    and the other branch otherwise.  Hence, when the directory has at
    least one child, exactly one of these lines has the terminal branch
    and it is the last of them. *)
Theorem last_child_glyph fs fuel d level segment s evs s' :
  traverse fs fuel d level segment s = Some (evs, s') ->
  Z.of_nat (length (listing fs d)) < SIZE_MODULUS ->
  map entry_name (own_lines d evs) = listing fs d
  /\ (forall i line,
         nth_error (own_lines d evs) i = Some line ->
         position line = Z.of_nat i + 1
         /\ (left line = LAST_BRANCH
             <-> position line
                 = fst (number_of_directories_in_directory fs d s)
                   + fst (number_of_files_in_directory fs d s))
         /\ (left line = LAST_BRANCH \/ left line = INNER_BRANCH))
  /\ (listing fs d <> [] ->
      exists front final,
        own_lines d evs = (front ++ [final])%list
        /\ left final = LAST_BRANCH
        /\ forall line, In line front -> left line = INNER_BRANCH).
Proof.
  intros Ht Hlen.
  apply traverse_walked in Ht. destruct Ht as [Hw _].
  pose proof (proj1 (walked_listed_own_lines fs _) _ _ _ _ Hw) as Hown.
  destruct (counts_exact fs d Hlen) as (_ & _ & Htotal).
  destruct (number_of_directories_spec fs d s) as [e1 ->].
  destruct (number_of_files_spec fs d s) as [e2 ->]. cbn [fst].
  assert (Hnth : forall i line,
             nth_error (own_lines d evs) i = Some line ->
             position line = Z.of_nat i + 1
             /\ left line
                = if Z.of_nat i + 1 =? Z.of_nat (length (listing fs d))
                  then LAST_BRANCH else INNER_BRANCH).
  { intros i line Hi. rewrite Hown in Hi.
    assert (Hlt : (i < length (listing fs d))%nat).
    { rewrite <- (lines_from_names fs (max_depth s) d level segment (listing fs d) 0).
      rewrite length_map. apply nth_error_Some. congruence. }
    destruct (lines_from_nth _ _ _ _ _ _ _ _ _ Hi) as (name & _ & Hline & Hpos).
    rewrite Z.add_0_l in Hpos, Hline.
    rewrite to_size_t_small in Hpos by lia.
    split; [exact Hpos |].
    rewrite Hline, left_line_of, to_size_t_add_l, Htotal.
    rewrite !to_size_t_small by lia. reflexivity. }
  split; [| split].
  - rewrite Hown. apply lines_from_names.
  - intros i line Hi. destruct (Hnth i line Hi) as [Hpos Hleft].
    rewrite Hpos, Hleft, Htotal.
    destruct (Z.eqb_spec (Z.of_nat i + 1) (Z.of_nat (length (listing fs d)))).
    + intuition.
    + pose proof branches_differ. intuition congruence.
  - intros Hne.
    destruct (exists_last (l := own_lines d evs)) as (front & final & Hsplit).
    { intros Hnil. apply Hne.
      rewrite <- (lines_from_names fs (max_depth s) d level segment (listing fs d) 0).
      rewrite <- Hown, Hnil. reflexivity. }
    assert (Hsize : length (listing fs d) = S (length front)).
    { rewrite <- (lines_from_names fs (max_depth s) d level segment (listing fs d) 0).
      rewrite <- Hown, Hsplit, length_map, length_app. simpl. lia. }
    exists front, final. split; [exact Hsplit | split].
    + destruct (Hnth (length front) final) as [_ ->].
      { rewrite Hsplit, nth_error_app2, Nat.sub_diag by lia. reflexivity. }
      rewrite Hsize. destruct (Z.eqb_spec (Z.of_nat (length front) + 1)
                                 (Z.of_nat (S (length front)))); [reflexivity | lia].
    + intros line Hin. destruct (In_nth_error _ _ Hin) as [i Hi].
      assert (Hi' : (i < length front)%nat) by (apply nth_error_Some; congruence).
      destruct (Hnth i line) as [_ ->].
      { rewrite Hsplit, nth_error_app1 by exact Hi'. exact Hi. }
      rewrite Hsize. destruct (Z.eqb_spec (Z.of_nat i + 1) (Z.of_nat (S (length front))));
        [lia | reflexivity].
Qed.

(** ** The Counter *)

(** C6. The two counts of a directory classify every entry the listing
    yields as a directory or as a file, never as both: they are the
    numbers of entries of each class, and add up to the number of
    entries. *)
Theorem counts_partition_children fs d s s' :
  Z.of_nat (length (fst (fs_directory_iterator fs d s))) < SIZE_MODULUS ->
  fst (number_of_directories_in_directory fs d s)
  + fst (number_of_files_in_directory fs d s')
  = Z.of_nat (length (fst (fs_directory_iterator fs d s)))
  /\ fst (number_of_directories_in_directory fs d s)
     = Z.of_nat (length (filter (fun p => fst (fs_is_directory fs p s))
                           (fst (fs_directory_iterator fs d s))))
  /\ fst (number_of_files_in_directory fs d s')
     = Z.of_nat (length (filter (fun p => negb (fst (fs_is_directory fs p s)))
                           (fst (fs_directory_iterator fs d s))))
  /\ forall p s1 s2,
       xorb (fst (fs_is_directory fs p s1))
            (fst ((b <- fs_is_directory fs p ;; ret (negb b)) s2)) = true.
Proof.
  rewrite fs_directory_iterator_spec. cbn [fst]. intros Hlen.
  unfold entries_of in Hlen. rewrite length_map in Hlen.
  destruct (counts_exact fs d Hlen) as (Hd & Hf & Hsum).
  destruct (number_of_directories_spec fs d s) as [e1 ->].
  destruct (number_of_files_spec fs d s') as [e2 ->]. cbn [fst].
  split; [| split; [| split]].
  - rewrite Hsum. unfold entries_of. rewrite length_map. reflexivity.
  - rewrite Hd. do 2 f_equal. apply filter_ext. intros p.
    rewrite fs_is_directory_spec. reflexivity.
  - rewrite Hf. do 2 f_equal. apply filter_ext. intros p.
    rewrite fs_is_directory_spec. reflexivity.
  - intros p s1 s2. rewrite bind_run, !fs_is_directory_spec. cbn [fst ret].
    destruct (directory_at fs p); reflexivity.
Qed.

(** ** The depth bound and the exit status *)

(** C7. The depth bound of a run is 1 when fewer than three arguments
    are given; otherwise it is the integer [atoi] reads in the third,
    which is 0 when the argument is not numeric, replaced by 1 when it
    is less than 1.  It is at least 1, and it is the bound the traversal
    runs with. *)
Theorem depth_bound_clamped fs argv r :
  main fs argv = Some r ->
  exit_status r = EXIT_SUCCESS ->
  max_depth (final r) = effective_depth argv
  /\ traverse fs (Z.to_nat (effective_depth argv)) (root_of argv) 1 ""
       (started argv) = Some (trace r, final r)
  /\ max_depth (started argv) = effective_depth argv
  /\ (Z.of_nat (length argv) < 3 -> effective_depth argv = 1)
  /\ (3 <= Z.of_nat (length argv) ->
      effective_depth argv
      = if atoi (nth 2 argv "") <? 1 then 1 else atoi (nth 2 argv ""))
  /\ (non_numeric (nth 2 argv "") = true -> atoi (nth 2 argv "") = 0)
  /\ 1 <= effective_depth argv.
Proof.
  intros Hmain Hexit.
  destruct (main_inversion fs argv r Hmain) as [(_ & Hfail & _) | (_ & _ & _ & Ht & _)];
    [rewrite Hfail in Hexit; discriminate |].
  split; [| split; [exact Ht | split; [reflexivity | split; [| split; [| split]]]]].
  - apply traverse_walked in Ht. destruct Ht as [_ Ha].
    apply accounts_max_depth in Ha. exact Ha.
  - intros Hlt. unfold effective_depth, parse_depth.
    destruct (Z.leb_spec 3 (Z.of_nat (length argv))); [lia | reflexivity].
  - intros Hge. unfold effective_depth, parse_depth.
    destruct (Z.leb_spec 3 (Z.of_nat (length argv))); [reflexivity | lia].
  - apply atoi_non_numeric.
  - apply effective_depth_bounds.
Qed.

Lemma c_str_root argv : c_str (root_of argv) = base (root_of argv).
Proof. reflexivity. Qed.

(** C8. [main] always returns.  The exit status is [EXIT_SUCCESS] as
    soon as the root resolves to a directory, whatever the probes of the
    traversal answer; it is [EXIT_FAILURE] in two cases only, the root
    is not there or it is not a directory, and then the message is on
    the error stream and nothing was written on the standard output. *)
Theorem exit_status_cases fs argv :
  exists r,
    main fs argv = Some r
    /\ if directory_at fs (root_of argv)
       then
         exit_status r = EXIT_SUCCESS /\ stderr r = ""
         /\ stdout r
            = c_str (root_of argv) ++ NEWLINE ++ printed (trace r) ++ summary (final r)
       else
         exit_status r = EXIT_FAILURE /\ stdout r = "" /\ trace r = []
         /\ stderr r
            = if present fs (root_of argv)
              then "cxx-tree: " ++ c_str (root_of argv) ++ ": Not a directory" ++ NEWLINE
              else "cxx-tree: cannot access '" ++ c_str (root_of argv)
                   ++ "': No such directory" ++ NEWLINE.
Proof.
  destruct (main_returns fs argv) as [r Hmain]. exists r. split; [exact Hmain |].
  pose proof (main_inversion fs argv r Hmain) as Hinv.
  revert Hmain. unfold main.
  destruct (fs_exists_spec fs (root_of argv) initial_state) as [e ->].
  rewrite fs_is_directory_spec. cbv beta iota.
  destruct (directory_at fs (root_of argv)) eqn:Hd.
  - intros _. destruct Hinv as [(Hf & _) | (_ & Hx & He & _ & Ho)];
      [discriminate | auto].
  - destruct (present fs (root_of argv)); simpl negb; cbv iota;
      intros H; injection H as <-; repeat split; reflexivity.
Qed.

(** ** Two runs *)

Section Agreement.

Variables fs1 fs2 : filesystem.

Lemma fs_is_directory_agree p s :
  agree_at fs1 fs2 p -> fs_is_directory fs1 p s = fs_is_directory fs2 p s.
Proof.
  intros (H & _). rewrite !fs_is_directory_spec. unfold directory_at.
  rewrite H. reflexivity.
Qed.

Lemma fs_directory_iterator_agree p s :
  agree_at fs1 fs2 p -> fs_directory_iterator fs1 p s = fs_directory_iterator fs2 p s.
Proof.
  intros (_ & _ & H & _). unfold fs_directory_iterator. rewrite H. reflexivity.
Qed.

Lemma probe_agree p s : agree_at fs1 fs2 p -> probe fs1 p s = probe fs2 p s.
Proof.
  intros (H1 & H2 & H3 & H4). rewrite !probe_spec.
  unfold probe_of, errno_after, target_at, directory_at, symlink_at.
  rewrite H1, H2, H3, H4. reflexivity.
Qed.

Lemma count_if_ext (pred1 pred2 : path -> io bool) entries :
  (forall p s, In p entries -> pred1 p s = pred2 p s) ->
  forall n s, count_if pred1 entries n s = count_if pred2 entries n s.
Proof.
  induction entries as [| p rest IH]; intros H n s; simpl; [reflexivity |].
  rewrite !bind_run, (H p s (or_introl eq_refl)).
  destruct (pred2 p s) as [b s1]. apply IH.
  intros q s0 Hq. apply H. right. exact Hq.
Qed.

Lemma for_each_entry_ext
    (body1 body2 : path -> Z -> state -> option (list event * Z * state)) entries :
  (forall p count s, In p entries -> body1 p count s = body2 p count s) ->
  forall count s,
    for_each_entry body1 entries count s = for_each_entry body2 entries count s.
Proof.
  induction entries as [| p rest IH]; intros H count s; simpl; [reflexivity |].
  rewrite (H p count s (or_introl eq_refl)).
  destruct (body2 p count s) as [[[evs c] s1] |]; [| reflexivity].
  rewrite IH; [reflexivity |].
  intros q c0 s0 Hq. apply H. right. exact Hq.
Qed.

Variable root : string.
Hypothesis agree : agree_below root fs1 fs2.

Lemma counts_agree d s :
  base d = root ->
  number_of_directories_in_directory fs1 d s = number_of_directories_in_directory fs2 d s
  /\ number_of_files_in_directory fs1 d s = number_of_files_in_directory fs2 d s.
Proof.
  intros Hd. unfold number_of_directories_in_directory, number_of_files_in_directory.
  rewrite !bind_run, (fs_directory_iterator_agree d s (agree d Hd)).
  rewrite fs_directory_iterator_spec.
  assert (Hin : forall p, In p (entries_of fs2 d) -> agree_at fs1 fs2 p).
  { intros p Hp. apply agree. unfold entries_of in Hp. apply in_map_iff in Hp.
    destruct Hp as (name & <- & _). exact Hd. }
  split; rewrite !bind_run.
  - rewrite (count_if_ext (fun p => fs_is_directory fs1 p) (fun p => fs_is_directory fs2 p));
      [reflexivity |].
    intros p s0 Hp. apply fs_is_directory_agree, Hin, Hp.
  - rewrite (count_if_ext (fun p => b <- fs_is_directory fs1 p ;; ret (negb b))
               (fun p => b <- fs_is_directory fs2 p ;; ret (negb b)));
      [reflexivity |].
    intros p s0 Hp. rewrite !bind_run, (fs_is_directory_agree p s0 (Hin p Hp)).
    reflexivity.
Qed.

Lemma traverse_agree fuel : forall d level segment s,
  base d = root ->
  traverse fs1 fuel d level segment s = traverse fs2 fuel d level segment s.
Proof.
  induction fuel as [| fuel IH]; intros d level segment s Hd; simpl; [reflexivity |].
  destruct (counts_agree d s Hd) as [-> _].
  destruct (number_of_directories_in_directory fs2 d s) as [nd s1].
  destruct (counts_agree d s1 Hd) as [_ ->].
  destruct (number_of_files_in_directory fs2 d s1) as [nf s2].
  rewrite (fs_directory_iterator_agree d _ (agree d Hd)).
  rewrite fs_directory_iterator_spec.
  rewrite (for_each_entry_ext
             (visit_entry fs1 (traverse fs1 fuel) d level segment nd nf)
             (visit_entry fs2 (traverse fs2 fuel) d level segment nd nf));
    [reflexivity |].
  intros p count s0 Hp. unfold entries_of in Hp. apply in_map_iff in Hp.
  destruct Hp as (name & <- & _).
  unfold visit_entry. rewrite (probe_agree (child d name) s0 (agree (child d name) Hd)).
  destruct (probe fs2 (child d name) s0) as [q s3].
  rewrite IH by exact Hd. reflexivity.
Qed.

End Agreement.

(** C9. Two runs with the same arguments, in file systems that answer
    alike about the root and about every path below it (what the names
    listed are and in which order, what each path is and resolves to),
    end alike: same bytes on the standard output, same exit status. *)
Theorem output_depends_on_subtree fs1 fs2 argv :
  agree_below (base (root_of argv)) fs1 fs2 ->
  main fs1 argv = main fs2 argv
  /\ forall r1 r2,
       main fs1 argv = Some r1 -> main fs2 argv = Some r2 ->
       stdout r1 = stdout r2 /\ exit_status r1 = exit_status r2.
Proof.
  intros Hagree.
  assert (Heq : main fs1 argv = main fs2 argv).
  { unfold main.
    assert (Hex : fs_exists fs1 (root_of argv) initial_state
                  = fs_exists fs2 (root_of argv) initial_state).
    { unfold fs_exists, bind, status.
      destruct (Hagree (root_of argv) eq_refl) as (-> & _). reflexivity. }
    rewrite Hex. destruct (fs_exists fs2 (root_of argv) initial_state) as [found s].
    destruct (negb found); [reflexivity |].
    rewrite (fs_is_directory_agree fs1 fs2 _ s (Hagree (root_of argv) eq_refl)).
    destruct (fs_is_directory fs2 (root_of argv) s) as [isd s1].
    destruct (negb isd); [reflexivity |].
    rewrite (traverse_agree fs1 fs2 _ Hagree); reflexivity. }
  split; [exact Heq |].
  intros r1 r2 H1 H2. rewrite Heq, H2 in H1. injection H1 as <-. auto.
Qed.

(** ** The sample runs *)

Ltac pick := repeat first [left; reflexivity | right].

Example sample_run_is_main : main sample_fs sample_argv = Some sample_run.
Proof. vm_compute. reflexivity. Qed.

Example sample_summary :
  summary (final sample_run) = NEWLINE ++ "4 directories, 2 files" ++ NEWLINE.
Proof. vm_compute. reflexivity. Qed.

(** What [sample_run] writes, byte for byte. *)
Example sample_stdout :
  stdout sample_run
  = "." ++ NEWLINE
    ++ "├── a.txt" ++ NEWLINE
    ++ "├── " ++ ESC ++ "[94msub" ++ ESC ++ "[0m" ++ NEWLINE
    ++ "│   ├── deep.txt" ++ NEWLINE
    ++ "│   └── " ++ ESC ++ "[94minner" ++ ESC ++ "[0m" ++ NEWLINE
    ++ "├── " ++ ESC ++ "[94mlink" ++ ESC ++ "[0m -> " ++ ESC ++ "[92m/home/u/sub"
    ++ ESC ++ "[0m" ++ NEWLINE
    ++ "└── " ++ ESC ++ "[94mlocked" ++ ESC ++ "[0m [access denied]" ++ NEWLINE
    ++ NEWLINE ++ "4 directories, 2 files" ++ NEWLINE.
Proof. vm_compute. reflexivity. Qed.

(** A directory met at the depth bound is counted by its parent and not
    visited: what it holds is neither rendered nor counted. *)
Example bound_stops_the_count :
  option_map stdout (main nested_fs ["cxx-tree"; "."; "1"])
  = Some ("." ++ NEWLINE
          ++ "└── " ++ ESC ++ "[94msub" ++ ESC ++ "[0m" ++ NEWLINE
          ++ NEWLINE ++ "1 directory, 0 files" ++ NEWLINE)
  /\ option_map stdout (main nested_fs ["cxx-tree"; "."; "2"])
     = Some ("." ++ NEWLINE
             ++ "└── " ++ ESC ++ "[94msub" ++ ESC ++ "[0m" ++ NEWLINE
             ++ "    └── deep.txt" ++ NEWLINE
             ++ NEWLINE ++ "1 directory, 1 file" ++ NEWLINE).
Proof. vm_compute. split; reflexivity. Qed.

(** The start-up failures. *)
Example startup_failures :
  option_map (fun r => (exit_status r, stdout r, stderr r))
    (main absent_fs ["cxx-tree"; "nowhere"])
  = Some (1, "", "cxx-tree: cannot access 'nowhere': No such directory" ++ NEWLINE)
  /\ option_map (fun r => (exit_status r, stdout r, stderr r))
       (main file_fs ["cxx-tree"; "a.txt"])
     = Some (1, "", "cxx-tree: a.txt: Not a directory" ++ NEWLINE).
Proof. vm_compute. split; reflexivity. Qed.

Example sample_depth_one :
  option_map (fun r => summary (final r)) (main sample_fs ["cxx-tree"; "."])
  = Some (NEWLINE ++ "3 directories, 1 file" ++ NEWLINE).
Proof. vm_compute. reflexivity. Qed.

Example atoi_samples :
  atoi "42" = 42 /\ atoi "  -7x" = -7 /\ atoi "deep" = 0 /\ atoi "+3" = 3
  /\ atoi "2147483648" = -2147483648 /\ atoi "99999999999999999999" = -1.
Proof. vm_compute. repeat split; reflexivity. Qed.

(** [sample_fs] and [sample_fs_alone] answer alike below [.]. *)
Lemma sample_agreement : agree_below "." sample_fs sample_fs_alone.
Proof.
  intros p Hp. unfold agree_at, sample_fs_alone. cbn [stat lstat opendir realpath].
  rewrite Hp. cbn [String.eqb Ascii.eqb Bool.eqb]. repeat split; reflexivity.
Defined.

(** On [sample_run], the totals are the sums over its two visits. *)
Lemma totals_sum_over_visits_witness :
  main sample_fs sample_argv = Some sample_run
  /\ exit_status sample_run = EXIT_SUCCESS
  /\ sum_directories (trace sample_run) < SIZE_MODULUS
  /\ sum_files (trace sample_run) < SIZE_MODULUS
  /\ total_directories (final sample_run) = sum_directories (trace sample_run)
  /\ total_files (final sample_run) = sum_files (trace sample_run).
Proof.
  assert (H1 : main sample_fs sample_argv = Some sample_run)
    by (vm_compute; reflexivity).
  assert (H2 : exit_status sample_run = EXIT_SUCCESS) by reflexivity.
  assert (H3 : sum_directories (trace sample_run) < SIZE_MODULUS)
    by (vm_compute; reflexivity).
  assert (H4 : sum_files (trace sample_run) < SIZE_MODULUS)
    by (vm_compute; reflexivity).
  destruct (totals_sum_over_visits sample_fs sample_argv sample_run H1 H2 H3 H4)
    as (Hd & Hf & _).
  repeat split; assumption.
Defined.

(** On [sample_run], [sub] is met at level 1, below the bound of 2. *)
Lemma recursion_guard_witness :
  main sample_fs sample_argv = Some sample_run
  /\ In (Render sample_root 1 sub_line) (trace sample_run)
  /\ (visited (child sample_root "sub") (trace sample_run)
      <-> directory_at sample_fs (child sample_root "sub") = true
          /\ symlink_at sample_fs (child sample_root "sub") = false
          /\ permission_denied sample_fs (child sample_root "sub") = false
          /\ 1 < max_depth (final sample_run)).
Proof.
  assert (H1 : main sample_fs sample_argv = Some sample_run)
    by (vm_compute; reflexivity).
  assert (H2 : In (Render sample_root 1 sub_line) (trace sample_run))
    by (vm_compute; pick).
  destruct (recursion_guard sample_fs sample_argv sample_run sample_root 1 sub_line
              H1 H2) as (Hiff & _).
  repeat split; try assumption; apply Hiff.
Defined.

(** On [sample_run], nothing happens at or under [locked]. *)
Lemma denied_directory_witness :
  main sample_fs sample_argv = Some sample_run
  /\ In (Render sample_root 1 locked_line) (trace sample_run)
  /\ directory_at sample_fs (child sample_root "locked") = true
  /\ symlink_at sample_fs (child sample_root "locked") = false
  /\ permission_denied sample_fs (child sample_root "locked") = true
  /\ forall e, In e (trace sample_run) ->
       ~ below (child sample_root "locked") (event_directory e).
Proof.
  assert (H1 : main sample_fs sample_argv = Some sample_run)
    by (vm_compute; reflexivity).
  assert (H2 : In (Render sample_root 1 locked_line) (trace sample_run))
    by (vm_compute; pick).
  assert (H3 : directory_at sample_fs (child sample_root (entry_name locked_line)) = true)
    by reflexivity.
  assert (H4 : symlink_at sample_fs (child sample_root (entry_name locked_line)) = false)
    by reflexivity.
  assert (H5 : permission_denied sample_fs (child sample_root (entry_name locked_line))
               = true) by reflexivity.
  destruct (denied_directory sample_fs sample_argv sample_run sample_root 1 locked_line
              H1 H2 H3 H4 H5) as (_ & Hnone & _).
  repeat split; assumption.
Defined.

(** On [sample_run], the four lines of [.] end with the terminal branch. *)
Lemma last_child_glyph_witness :
  traverse sample_fs 2 sample_root 1 "" (started sample_argv)
  = Some (trace sample_run, final sample_run)
  /\ Z.of_nat (length (listing sample_fs sample_root)) < SIZE_MODULUS
  /\ exists front final,
       own_lines sample_root (trace sample_run) = (front ++ [final])%list
       /\ left final = LAST_BRANCH
       /\ forall line, In line front -> left line = INNER_BRANCH.
Proof.
  assert (H1 : traverse sample_fs 2 sample_root 1 "" (started sample_argv)
               = Some (trace sample_run, final sample_run))
    by (vm_compute; reflexivity).
  assert (H2 : Z.of_nat (length (listing sample_fs sample_root)) < SIZE_MODULUS)
    by (vm_compute; reflexivity).
  destruct (last_child_glyph sample_fs 2 sample_root 1 "" (started sample_argv)
              (trace sample_run) (final sample_run) H1 H2) as (_ & _ & Hlast).
  repeat split; try assumption; apply Hlast; discriminate.
Defined.

(** On [sample_run], [link] resolves to a directory and is left alone. *)
Lemma symlinks_are_leaves_witness :
  main sample_fs sample_argv = Some sample_run
  /\ In (Render sample_root 1 link_line) (trace sample_run)
  /\ symlink_at sample_fs (child sample_root "link") = true
  /\ directory_at sample_fs (child sample_root "link") = true
  /\ forall e, In e (trace sample_run) ->
       ~ below (child sample_root "link") (event_directory e).
Proof.
  assert (H1 : main sample_fs sample_argv = Some sample_run)
    by (vm_compute; reflexivity).
  assert (H2 : In (Render sample_root 1 link_line) (trace sample_run))
    by (vm_compute; pick).
  assert (H3 : symlink_at sample_fs (child sample_root (entry_name link_line)) = true)
    by reflexivity.
  destruct (symlinks_are_leaves sample_fs sample_argv sample_run sample_root 1 link_line
              H1 H2 H3) as (_ & Hnone).
  repeat split; try assumption; reflexivity.
Defined.

(** The two counts of [.] in [sample_fs] add up to its four entries. *)
Lemma counts_partition_children_witness :
  Z.of_nat (length (fst (fs_directory_iterator sample_fs sample_root initial_state)))
  < SIZE_MODULUS
  /\ fst (number_of_directories_in_directory sample_fs sample_root initial_state)
     + fst (number_of_files_in_directory sample_fs sample_root initial_state)
     = 4.
Proof.
  assert (H1 : Z.of_nat (length (fst (fs_directory_iterator sample_fs sample_root
                                        initial_state))) < SIZE_MODULUS)
    by (vm_compute; reflexivity).
  destruct (counts_partition_children sample_fs sample_root initial_state initial_state
              H1) as (Hsum & _).
  split; [exact H1 | exact Hsum].
Defined.

(** [sample_run] works with the bound its third argument gives. *)
Lemma depth_bound_clamped_witness :
  main sample_fs sample_argv = Some sample_run
  /\ exit_status sample_run = EXIT_SUCCESS
  /\ max_depth (final sample_run) = 2
  /\ 1 <= effective_depth sample_argv.
Proof.
  assert (H1 : main sample_fs sample_argv = Some sample_run)
    by (vm_compute; reflexivity).
  assert (H2 : exit_status sample_run = EXIT_SUCCESS) by reflexivity.
  destruct (depth_bound_clamped sample_fs sample_argv sample_run H1 H2)
    as (Hmd & _ & _ & _ & _ & _ & Hge).
  repeat split; assumption.
Defined.

(** [sample_fs] and [sample_fs_alone] give the same run. *)
Lemma output_depends_on_subtree_witness :
  agree_below (base (root_of sample_argv)) sample_fs sample_fs_alone
  /\ main sample_fs sample_argv = main sample_fs_alone sample_argv.
Proof.
  assert (H1 : agree_below (base (root_of sample_argv)) sample_fs sample_fs_alone)
    by exact sample_agreement.
  destruct (output_depends_on_subtree sample_fs sample_fs_alone sample_argv H1)
    as (Heq & _).
  split; assumption.
Defined.

(** On [sample_run], the call on [sub] is at level 2. *)
Lemma level_within_bound_witness :
  main sample_fs sample_argv = Some sample_run
  /\ In (Visit (child sample_root "sub") 2 1 1) (trace sample_run)
  /\ 1 <= 2 <= max_depth (final sample_run).
Proof.
  assert (H1 : main sample_fs sample_argv = Some sample_run)
    by (vm_compute; reflexivity).
  assert (H2 : In (Visit (child sample_root "sub") 2 1 1) (trace sample_run))
    by (vm_compute; pick).
  destruct (level_within_bound sample_fs sample_argv sample_run
              (child sample_root "sub") 2 1 1 H1 H2) as (_ & Hl & _).
  repeat split; try assumption; apply Hl.
Defined.

(** C3, as stated, fails on [sample_fs]: [locked] is a directory whose
    enumeration is denied, it is rendered, and its own counts are neither
    computed nor added, for [traverse] is never called on it; the totals
    of the run are the counts of [.] and of [sub] alone. *)
Lemma denied_directory_own_counts_not_added :
  main sample_fs sample_argv = Some sample_run
  /\ In (Render sample_root 1 locked_line) (trace sample_run)
  /\ directory_at sample_fs (child sample_root "locked") = true
  /\ permission_denied sample_fs (child sample_root "locked") = true
  /\ ~ visited (child sample_root "locked") (trace sample_run)
  /\ (forall p, visited p (trace sample_run) ->
        p = sample_root \/ p = child sample_root "sub")
  /\ total_directories (final sample_run) = 3 + 1
  /\ total_files (final sample_run) = 1 + 1.
Proof.
  split; [vm_compute; reflexivity |].
  split; [vm_compute; pick |].
  split; [reflexivity |].
  split; [reflexivity |].
  cut ((~ visited (child sample_root "locked") (trace sample_run)
        /\ (forall p, visited p (trace sample_run) ->
              p = sample_root \/ p = child sample_root "sub"))).
  { intros [H1 H2]. repeat split; try assumption; reflexivity. }
  assert (Hv : forall p, visited p (trace sample_run) ->
                 p = sample_root \/ p = child sample_root "sub").
  { intros p (l & nd & nf & H). unfold sample_run in H. cbn [trace In] in H.
    repeat (destruct H as [H | H]; [try discriminate H |]); try contradiction.
    - injection H as <- _ _ _. left. reflexivity.
    - injection H as <- _ _ _. right. reflexivity. }
  split; [| exact Hv].
  intros H. apply Hv in H. destruct H as [H | H]; discriminate H.
Qed.

(** C4, as stated, fails on [empty_fs]: the root is visited and no line
    at all is rendered for it, so none with the terminal branch. *)
Lemma empty_directory_no_terminal_branch :
  main empty_fs ["cxx-tree"] = Some empty_run
  /\ visited sample_root (trace empty_run)
  /\ ~ exists line,
         In line (own_lines sample_root (trace empty_run))
         /\ left line = LAST_BRANCH.
Proof.
  split; [vm_compute; reflexivity |].
  split; [exists 1, 0, 0; left; reflexivity |].
  intros (line & H & _). exact H.
Qed.

(** * Further properties *)

(** ** The layout of a line *)

Lemma append_assoc (a b c : string) : (a ++ b) ++ c = a ++ b ++ c.
Proof. induction a as [| x a IH]; simpl; [reflexivity | rewrite IH; reflexivity]. Qed.

Lemma render_entry_layout segment level md name q count total :
  text (render_entry segment level md name q count total)
  = segment ++ left (render_entry segment level md name q count total) ++ " "
    ++ label name q level md ++ NEWLINE.
Proof.
  unfold render_entry, label. cbn [text left].
  unfold blue, green.
  destruct (is_symlink q), (is_directory q),
    (access_denied q && negb (level =? md));
    repeat (progress (rewrite ?append_assoc; cbn)); reflexivity.
Qed.

Lemma join_app a b : join (a ++ b) = join a ++ join b.
Proof.
  induction a as [| g a IH]; simpl; [reflexivity |].
  rewrite IH, append_assoc. reflexivity.
Qed.

Lemma append_empty (a : string) : a ++ "" = a.
Proof. induction a as [| x a IH]; simpl; [reflexivity | rewrite IH; reflexivity]. Qed.

Lemma right_line_of fs md d level segment name count :
  continuation (right (line_of fs md d level segment name count)).
Proof.
  unfold line_of, render_entry, continuation. cbn [right].
  destruct (_ =? _); auto.
Qed.

(** Every line of a walk is the line of an entry of its directory, drawn
    with the segment of the walk extended by one continuation glyph per
    directory gone into on the way. *)
Lemma walked_listed_segments fs md :
  (forall d level segment evs,
      walked fs md d level segment evs ->
      forall p l line, In (Render p l line) evs ->
        exists glyphs name count,
          Forall continuation glyphs
          /\ length (rel p) = (length (rel d) + length glyphs)%nat
          /\ line = line_of fs md p l (segment ++ join glyphs) name count)
  /\ (forall d level segment names count evs,
         listed fs md d level segment names count evs ->
         forall p l line, In (Render p l line) evs ->
           exists glyphs name count',
             Forall continuation glyphs
             /\ length (rel p) = (length (rel d) + length glyphs)%nat
             /\ line = line_of fs md p l (segment ++ join glyphs) name count').
Proof.
  apply walked_listed_ind.
  - intros d level segment evs _ IH p l line [H | H]; [discriminate | eauto].
  - intros d level segment count p l line [].
  - intros d level segment name rest count evs _ _ IH p l line [H | H]; [| eauto].
    injection H as <- <- <-. exists [], name, count. simpl join.
    rewrite append_empty.
    split; [apply Forall_nil | split; [simpl; lia | reflexivity]].
  - intros d level segment name rest count sub evs _ _ IHsub _ IH p l line [H | H].
    + injection H as <- <- <-. exists [], name, count. simpl join.
      rewrite append_empty.
    split; [apply Forall_nil | split; [simpl; lia | reflexivity]].
    + apply in_app_or in H. destruct H as [H | H]; [| eauto].
      destruct (IHsub _ _ _ H) as (glyphs & n & c & Hg & Hlen & Hline).
      exists (right (line_of fs md d level segment name count) :: glyphs), n, c.
      split; [constructor; [apply right_line_of | exact Hg] |].
      split.
      * rewrite Hlen. simpl. rewrite length_app. simpl. lia.
      * rewrite Hline. simpl join. rewrite append_assoc. reflexivity.
Qed.

(** What a run knows of each of its lines. *)
Lemma main_line fs argv r d l line :
  main fs argv = Some r ->
  In (Render d l line) (trace r) ->
  exists glyphs count,
    Forall continuation glyphs
    /\ Z.of_nat (length glyphs) = l - 1
    /\ line = line_of fs (max_depth (final r)) d l (join glyphs) (entry_name line) count.
Proof.
  intros Hmain Hin.
  destruct (main_walked fs argv r Hmain) as [Hnil | (Hmd & Hw & _)];
    [rewrite Hnil in Hin; destruct Hin |].
  pose proof (effective_depth_bounds argv) as Hb.
  destruct (proj1 (walked_listed_segments fs _) _ _ _ _ Hw _ _ _ Hin)
    as (glyphs & name & count & Hg & Hlen & Hline).
  pose proof (proj1 (walked_listed_levelled fs _ (proj2 Hb)) _ _ _ _ Hw
                ltac:(lia) _ Hin) as [Hlev _].
  cbn [event_level event_directory root_of rel length] in Hlev, Hlen.
  exists glyphs, count. rewrite Hmd.
  split; [exact Hg | split; [lia |]].
  rewrite Hline at 1. rewrite Hline. reflexivity.
Qed.

(** X1. In a run of [main], the line of an entry is the indentation, the
    branch glyph, a space, the label of the entry and a line feed.  The
    label is the name, in blue when the entry resolves to a directory;
    for a symbolic link it goes on with an arrow and the canonical
    target in green (empty when it cannot be resolved); for a directory
    that is no link it goes on with the bracketed marker when opening
    the directory is denied and the level is not the depth bound.  A
    denial left in [err] by another probe changes nothing to the line of
    an entry that is no directory. *)
Theorem line_label fs argv r d l line :
  main fs argv = Some r ->
  In (Render d l line) (trace r) ->
  (exists segment,
      text line
      = segment ++ left line ++ " "
        ++ label (entry_name line) (flags line) l (max_depth (final r)) ++ NEWLINE)
  /\ is_directory (flags line) = directory_at fs (child d (entry_name line))
  /\ is_symlink (flags line) = symlink_at fs (child d (entry_name line))
  /\ canonical_path (flags line)
     = (if symlink_at fs (child d (entry_name line))
        then match realpath fs (child d (entry_name line)) with
             | Ok target => target
             | Failed _ => ""
             end
        else "")
  /\ (directory_at fs (child d (entry_name line)) = true ->
      access_denied (flags line) = permission_denied fs (child d (entry_name line)))
  /\ (directory_at fs (child d (entry_name line)) = false ->
      symlink_at fs (child d (entry_name line)) = false ->
      label (entry_name line) (flags line) l (max_depth (final r)) = entry_name line).
Proof.
  intros Hmain Hin.
  destruct (main_line fs argv r d l line Hmain Hin) as (glyphs & count & _ & _ & Hline).
  set (name := entry_name line) in *.
  assert (Hflags : flags line = probe_of fs (child d name))
    by (rewrite Hline; reflexivity).
  split; [| rewrite Hflags; repeat split].
  - exists (join glyphs). rewrite Hline at 1. unfold line_of.
    rewrite render_entry_layout.
    fold (line_of fs (max_depth (final r)) d l (join glyphs) name count).
    rewrite <- Hline, Hflags. reflexivity.
  - apply access_denied_directory.
  - intros Hd Hs. unfold label. cbn [is_symlink is_directory probe_of].
    rewrite Hd, Hs. reflexivity.
Qed.


(** ** The shared error code *)

Lemma count_if_last (pred : path -> io bool) (f : path -> bool) (g : path -> Z) entries :
  (forall p s, pred p s = (f p, set_err (g p) s)) ->
  forall n s e0,
    count_if pred entries n (set_err e0 s)
    = (n + Z.of_nat (length (filter f entries)),
       set_err (match rev entries with p :: _ => g p | [] => e0 end) s).
Proof.
  intros Hpred.
  induction entries as [| p rest IH]; intros n s e0; simpl.
  - unfold ret. rewrite Z.add_0_r. reflexivity.
  - rewrite bind_run, Hpred.
    change (set_err (g p) (set_err e0 s)) with (set_err (g p) s).
    rewrite IH. f_equal.
    + destruct (f p); simpl length; lia.
    + f_equal. destruct (rev rest) as [| q tail] eqn:Hrev; reflexivity.
Qed.

(** The two Counters, run on any state. *)
Lemma counters_run fs d s :
  number_of_directories_in_directory fs d s
  = (directories_in fs d, set_err (errno_counted fs d) s)
  /\ number_of_files_in_directory fs d s
     = (files_in fs d, set_err (errno_counted fs d) s).
Proof.
  split.
  - unfold number_of_directories_in_directory.
    rewrite bind_run, fs_directory_iterator_spec, bind_run.
    rewrite (count_if_last _ (directory_at fs) (fun p => errno_of (stat fs p)));
      [reflexivity |].
    intros p s0. apply fs_is_directory_spec.
  - unfold number_of_files_in_directory.
    rewrite bind_run, fs_directory_iterator_spec, bind_run.
    rewrite (count_if_last _ (fun p => negb (directory_at fs p))
               (fun p => errno_of (stat fs p)));
      [reflexivity |].
    intros p s0. rewrite bind_run, fs_is_directory_spec. reflexivity.
Qed.

(** X3. The Counter gives the number of entries that resolve to a
    directory, and the number of the others, whatever [err] held before;
    it leaves in [err] the outcome of its last probe, that is of [stat]
    on the last entry listed, or of opening the directory when nothing
    was listed: a directory that cannot be opened counts for nothing
    and the reason is handed back. *)
Theorem counter_leaves_last_error fs d s :
  number_of_directories_in_directory fs d s
  = (to_size_t (Z.of_nat (length (filter (directory_at fs) (entries_of fs d)))),
     set_err (errno_counted fs d) s)
  /\ number_of_files_in_directory fs d s
     = (to_size_t (Z.of_nat (length (filter (fun p => negb (directory_at fs p))
                                       (entries_of fs d)))),
        set_err (errno_counted fs d) s)
  /\ (forall e, opendir fs d = Failed e ->
        number_of_directories_in_directory fs d s = (0, set_err e s)
        /\ number_of_files_in_directory fs d s = (0, set_err e s)).
Proof.
  destruct (counters_run fs d s) as [Hd Hf].
  split; [exact Hd | split; [exact Hf |]].
  intros e He. rewrite Hd, Hf.
  unfold directories_in, files_in, errno_counted, entries_of, listing.
  rewrite He. auto.
Qed.

(** X4. Nothing a call of [traverse] does depends on what [err] holds
    when it is called: the probes of an entry overwrite it before
    [access_denied] reads it, so an error left by a sibling, by its
    subtree or by the caller never shows in a line nor in a decision to
    recurse. *)
Theorem stale_error_is_harmless fs fuel d level segment s e :
  traverse fs fuel d level segment (set_err e s) = traverse fs fuel d level segment s
  /\ (forall entry, probe fs entry (set_err e s) = probe fs entry s)
  /\ forall self n_directories n_files entry entries_count,
       visit_entry fs self d level segment n_directories n_files entry entries_count
         (set_err e s)
       = visit_entry fs self d level segment n_directories n_files entry entries_count s.
Proof.
  split; [| split].
  - destruct fuel as [| fuel]; [reflexivity |]. simpl.
    destruct (counters_run fs d (set_err e s)) as (-> & _).
    destruct (counters_run fs d s) as (-> & _).
    reflexivity.
  - intros entry. rewrite !probe_spec. reflexivity.
  - intros. unfold visit_entry. rewrite !probe_spec. reflexivity.
Qed.

(** ** The summary and the lines *)

Lemma sum_directories_app evs evs' :
  sum_directories (evs ++ evs') = sum_directories evs + sum_directories evs'.
Proof.
  induction evs as [| [d l nd nf | d l line] evs IH]; simpl; lia.
Qed.

Lemma sum_files_app evs evs' :
  sum_files (evs ++ evs') = sum_files evs + sum_files evs'.
Proof.
  induction evs as [| [d l nd nf | d l line] evs IH]; simpl; lia.
Qed.

Lemma directory_lines_app evs evs' :
  directory_lines (evs ++ evs') = directory_lines evs + directory_lines evs'.
Proof.
  induction evs as [| [d l nd nf | d l line] evs IH]; simpl; lia.
Qed.

Lemma file_lines_app evs evs' :
  file_lines (evs ++ evs') = file_lines evs + file_lines evs'.
Proof.
  induction evs as [| [d l nd nf | d l line] evs IH]; simpl; lia.
Qed.

Lemma lines_nonnegative evs : 0 <= directory_lines evs /\ 0 <= file_lines evs.
Proof.
  induction evs as [| [d l nd nf | d l line] evs IH]; simpl; [lia | lia |].
  destruct (is_directory (flags line)); lia.
Qed.

Lemma lines_bounded evs :
  directory_lines evs + file_lines evs <= Z.of_nat (length evs).
Proof.
  induction evs as [| [d l nd nf | d l line] evs IH]; simpl length; simpl; [lia | lia |].
  destruct (is_directory (flags line)); lia.
Qed.

(** In a walk of fewer than 2^64 events the counts added are the numbers
    of lines rendered, class by class. *)
Lemma walked_listed_tally fs md :
  (forall d level segment evs,
      walked fs md d level segment evs ->
      Z.of_nat (length evs) < SIZE_MODULUS ->
      sum_directories evs = directory_lines evs
      /\ sum_files evs = file_lines evs)
  /\ (forall d level segment names count evs,
         listed fs md d level segment names count evs ->
         Z.of_nat (length evs) < SIZE_MODULUS ->
         directory_lines evs
         = Z.of_nat (length (filter (directory_at fs) (map (child d) names)))
           + sum_directories evs
         /\ file_lines evs
            = Z.of_nat (length (filter (fun p => negb (directory_at fs p))
                                  (map (child d) names)))
              + sum_files evs
         /\ (length names <= length evs)%nat).
Proof.
  apply walked_listed_ind.
  - intros d level segment evs _ IH Hlen. simpl length in Hlen.
    destruct IH as (Hd & Hf & Hn); [lia |].
    assert (Hsmall : Z.of_nat (length (listing fs d)) < SIZE_MODULUS) by lia.
    destruct (counts_exact fs d Hsmall) as (Hcd & Hcf & _).
    simpl. rewrite Hcd, Hcf. unfold entries_of. lia.
  - intros d level segment count _. simpl. lia.
  - intros d level segment name rest count evs _ _ IH Hlen. simpl length in Hlen.
    destruct IH as (Hd & Hf & Hn); [lia |].
    cbn [directory_lines file_lines sum_directories sum_files map filter].
    rewrite flags_line_of. cbn [is_directory probe_of].
    destruct (directory_at fs (child d name)); cbn [negb length]; lia.
  - intros d level segment name rest count sub evs _ _ IHsub _ IH Hlen.
    simpl length in Hlen. rewrite length_app in Hlen.
    destruct IHsub as (Hsd & Hsf); [lia |].
    destruct IH as (Hd & Hf & Hn); [lia |].
    cbn [directory_lines file_lines sum_directories sum_files map filter].
    rewrite flags_line_of. cbn [is_directory probe_of].
    rewrite directory_lines_app, file_lines_app, sum_directories_app, sum_files_app.
    cbn [length]. rewrite length_app.
    destruct (directory_at fs (child d name)); cbn [negb length]; lia.
Qed.

(** X5. The summary counts what the listing shows: in a run of fewer
    than 2^64 events, the number of directories reported is the number
    of lines rendered for entries that resolve to a directory (those
    with the name in blue, links to directories included), and the
    number of files reported is the number of all the other lines. *)
Theorem summary_counts_the_lines fs argv r :
  main fs argv = Some r ->
  Z.of_nat (length (trace r)) < SIZE_MODULUS ->
  total_directories (final r) = directory_lines (trace r)
  /\ total_files (final r) = file_lines (trace r).
Proof.
  intros Hmain Hlen.
  destruct (main_inversion fs argv r Hmain) as [(_ & _ & _ & Ht & Hs) | _].
  { rewrite Ht. unfold statics in Hs. injection Hs as _ -> ->. auto. }
  destruct (main_walked fs argv r Hmain) as [Hnil | (_ & Hw & Hst)].
  { destruct (main_inversion fs argv r Hmain) as [(_ & _ & _ & _ & Hs) | (_ & _ & _ & Ht & _)].
    - rewrite Hnil. unfold statics in Hs. injection Hs as _ -> ->. auto.
    - apply traverse_walked in Ht. destruct Ht as [Hw _]. rewrite Hnil in Hw.
      inversion Hw. }
  destruct (proj1 (walked_listed_tally fs _) _ _ _ _ Hw Hlen) as [Hd Hf].
  pose proof (lines_nonnegative (trace r)) as [Hnd Hnf].
  pose proof (lines_bounded (trace r)) as Hb.
  unfold statics in Hst. injection Hst as _ Htd Htf.
  destruct (replay_totals (trace r) (parse_depth argv initial_state)) as [Hd' Hf'].
  { unfold parse_depth, ranged. destruct (3 <=? _); simpl; unfold SIZE_MODULUS; lia. }
  rewrite Htd, Htf, Hd', Hf', Hd, Hf.
  replace (total_directories (parse_depth argv initial_state)) with 0
    by (unfold parse_depth; destruct (3 <=? _); reflexivity).
  replace (total_files (parse_depth argv initial_state)) with 0
    by (unfold parse_depth; destruct (3 <=? _); reflexivity).
  rewrite !to_size_t_small by lia. lia.
Qed.

(** ** Calls at the depth bound *)

Lemma listed_at_bound fs md :
  (forall d level segment evs, walked fs md d level segment evs -> True)
  /\ (forall d level segment names count evs,
         listed fs md d level segment names count evs ->
         level = md ->
         evs = map (Render d level) (lines_from fs md d level segment names count)).
Proof.
  apply walked_listed_ind.
  - auto.
  - reflexivity.
  - intros d level segment name rest count evs _ _ IH Hl. simpl.
    rewrite IH by exact Hl. reflexivity.
  - intros d level segment name rest count sub evs Hx _ _ _ _ Hl.
    apply expands_level in Hx. apply Z.eqb_neq in Hx. contradiction.
Qed.

Lemma printed_lines d level lines :
  printed (map (Render d level) lines) = join (map text lines).
Proof.
  induction lines as [| line lines IH]; simpl; [| rewrite IH]; reflexivity.
Qed.

(** X6. A call of [traverse] at the depth bound, as the one [main] makes
    when no depth is given, renders one line per entry of its directory,
    in listing order, and calls on nothing: its events are its visit and
    these lines, and what it prints is their texts. *)
Theorem call_at_the_bound fs fuel d level segment s evs s' :
  traverse fs fuel d level segment s = Some (evs, s') ->
  level = max_depth s ->
  evs
  = Visit d level
      (fst (number_of_directories_in_directory fs d s))
      (fst (number_of_files_in_directory fs d s))
    :: map (Render d level)
         (lines_from fs (max_depth s) d level segment (listing fs d) 0)
  /\ printed evs
     = join (map text (lines_from fs (max_depth s) d level segment (listing fs d) 0))
  /\ map entry_name (lines_from fs (max_depth s) d level segment (listing fs d) 0)
     = listing fs d.
Proof.
  intros Ht Hl. apply traverse_walked in Ht. destruct Ht as [Hw _].
  destruct (walked_head _ _ _ _ _ _ Hw) as (rest & -> & Hlisted).
  rewrite (proj2 (listed_at_bound fs _) _ _ _ _ _ _ Hlisted Hl).
  destruct (counters_run fs d s) as (-> & ->). cbn [fst].
  split; [reflexivity | split].
  - cbn [printed]. apply printed_lines.
  - apply lines_from_names.
Qed.

(** ** Directories that cannot be opened for another reason *)

(** X7. In a run of [main], a directory that is no symbolic link, is met
    below the depth bound and cannot be opened for a reason other than
    a denial (it is gone, say) is rendered without any marker and gone
    into all the same: [traverse] is called on it, counts nothing and
    renders nothing for it. *)
Theorem unopenable_directory_is_entered fs argv r d l line errno :
  main fs argv = Some r ->
  In (Render d l line) (trace r) ->
  directory_at fs (child d (entry_name line)) = true ->
  symlink_at fs (child d (entry_name line)) = false ->
  opendir fs (child d (entry_name line)) = Failed errno ->
  errno <> EACCES ->
  l < max_depth (final r) ->
  In (Visit (child d (entry_name line)) (l + 1) 0 0) (trace r)
  /\ (forall l' line', ~ In (Render (child d (entry_name line)) l' line') (trace r))
  /\ label (entry_name line) (flags line) l (max_depth (final r))
     = blue (entry_name line).
Proof.
  intros Hmain Hin Hd Hs Ho Hne Hlt.
  destruct (main_walked fs argv r Hmain) as [Hnil | (Hmd & Hw & _)];
    [rewrite Hnil in Hin; destruct Hin |].
  pose proof (effective_depth_bounds argv) as Hb. rewrite Hmd in *.
  set (entry := child d (entry_name line)) in *.
  assert (Hp : permission_denied fs entry = false).
  { unfold permission_denied. rewrite Ho. apply Z.eqb_neq. exact Hne. }
  assert (Hlist : listing fs entry = []) by (unfold listing; rewrite Ho; reflexivity).
  pose proof (proj1 (walked_listed_levelled fs _ (proj2 Hb)) _ _ _ _ Hw
                ltac:(lia) _ Hin) as [_ Hl].
  cbn [event_level] in Hl.
  assert (Hx : expands fs (effective_depth argv) entry l = true)
    by (apply expands_iff; intuition lia).
  split; [| split].
  - pose proof (proj1 (walked_listed_entered fs _) _ _ _ _ Hw _ _ _ Hin Hx) as Hv.
    fold entry in Hv.
    destruct (step_level _ (proj2 Hb) l ltac:(lia) (expands_level _ _ _ _ Hx)) as [Hstep _].
    rewrite Hstep in Hv.
    unfold directories_in, files_in, entries_of in Hv. rewrite Hlist in Hv. exact Hv.
  - intros l' line' Hr.
    destruct (proj1 (walked_listed_lines fs _) _ _ _ _ Hw _ _ _ Hr)
      as (seg & name & count & _ & Hname).
    rewrite Hlist in Hname. destruct Hname.
  - destruct (proj1 (walked_listed_lines fs _) _ _ _ _ Hw _ _ _ Hin)
      as (seg & name & count & Hline & _).
    assert (Hflags : flags line = probe_of fs entry).
    { unfold entry. rewrite Hline at 1. rewrite Hline. reflexivity. }
    unfold label. rewrite Hflags. cbn [is_symlink is_directory probe_of].
    rewrite Hs, Hd, (access_denied_directory fs entry Hd), Hp.
    cbn [andb]. apply append_empty.
Qed.

(** ** What a call keeps *)

(** X8. A call of [traverse] that returns has left the depth bound as it
    was; and, the additions not overflowing, it has added to each total
    the counts of the visits it made: a total never goes down. *)
Theorem traverse_keeps_the_bound fs fuel d level segment s evs s' :
  traverse fs fuel d level segment s = Some (evs, s') ->
  0 <= total_directories s ->
  0 <= total_files s ->
  total_directories s + sum_directories evs < SIZE_MODULUS ->
  total_files s + sum_files evs < SIZE_MODULUS ->
  max_depth s' = max_depth s
  /\ total_directories s' = total_directories s + sum_directories evs
  /\ total_files s' = total_files s + sum_files evs
  /\ total_directories s <= total_directories s'
  /\ total_files s <= total_files s'.
Proof.
  intros Ht Hd0 Hf0 Hd Hf.
  apply traverse_walked in Ht. destruct Ht as [Hw Ha].
  pose proof (accounts_max_depth _ _ _ Ha) as Hm.
  pose proof (proj1 (walked_listed_counts fs _) _ _ _ _ Hw) as Hcounts.
  assert (Hnn : 0 <= sum_directories evs /\ 0 <= sum_files evs).
  { apply sums_nonnegative. intros p l nd nf Hin.
    destruct (Hcounts _ _ _ _ Hin) as [-> ->]. split; apply to_size_t_range. }
  unfold accounts, statics in Ha. injection Ha as _ Htd Htf.
  destruct (replay_totals evs s) as [Hd' Hf'].
  { unfold ranged. lia. }
  rewrite Htd, Htf, Hd', Hf', !to_size_t_small by lia.
  repeat split; lia.
Qed.

(** ** Reading the depth back *)

Lemma digits_of_uint_acc d : forall acc,
  digits (NilEmpty.string_of_uint d) (Z.pos acc) = Z.pos (Pos.of_uint_acc d acc).
Proof.
  induction d as [| d IH | d IH | d IH | d IH | d IH | d IH | d IH | d IH | d IH | d IH];
    intros acc; [reflexivity | ..];
    cbn [NilEmpty.string_of_uint digits Pos.of_uint_acc];
    match goal with
    | |- context [digit_value ?c] =>
        let v := eval vm_compute in (digit_value c) in
        change (digit_value c) with v; cbv iota
    end;
    rewrite <- IH; f_equal; lia.
Qed.

Lemma digits_of_uint d :
  digits (NilEmpty.string_of_uint d) 0 = Z.of_N (Pos.of_uint d).
Proof.
  induction d as [| d IH | d IH | d IH | d IH | d IH | d IH | d IH | d IH | d IH | d IH];
    [reflexivity | exact IH | ..];
    cbn [NilEmpty.string_of_uint digits Pos.of_uint];
    match goal with
    | |- context [digit_value ?c] =>
        let v := eval vm_compute in (digit_value c) in
        change (digit_value c) with v; cbv iota
    end;
    cbn [Z.of_N]; rewrite <- digits_of_uint_acc; reflexivity.
Qed.

Lemma string_of_uint_head d :
  d <> Decimal.Nil ->
  exists c t,
    NilEmpty.string_of_uint d = String c t
    /\ isspace c = false /\ Ascii.eqb c "-" = false /\ Ascii.eqb c "+" = false.
Proof.
  destruct d; [congruence | ..]; intros _; do 2 eexists;
    (split; [reflexivity | repeat split; reflexivity]).
Qed.

Lemma strtol_string_of_uint d :
  strtol (NilZero.string_of_uint d)
  = Z.max LONG_MIN (Z.min LONG_MAX (Z.of_N (Pos.of_uint d))).
Proof.
  destruct (Decimal.uint_eq_dec d Decimal.Nil) as [-> | Hd]; [reflexivity |].
  replace (NilZero.string_of_uint d) with (NilEmpty.string_of_uint d)
    by (destruct d; [congruence | ..]; reflexivity).
  destruct (string_of_uint_head d Hd) as (c & t & Hs & Hsp & Hm & Hp).
  unfold strtol. rewrite Hs. cbn [skip_spaces]. rewrite Hsp, Hm, Hp.
  rewrite <- Hs, digits_of_uint. reflexivity.
Qed.

Lemma strtol_decimal z : 0 <= z -> strtol (decimal z) = Z.min LONG_MAX z.
Proof.
  intros Hz. unfold decimal. rewrite strtol_string_of_uint.
  pose proof (DecimalN.Unsigned.of_to (Z.to_N z)) as Hback.
  unfold N.of_uint in Hback. rewrite Hback, Z2N.id by exact Hz.
  unfold LONG_MIN, LONG_MAX. change (2 ^ 63) with 9223372036854775808. lia.
Qed.

(** X9. A depth written in decimal is read back as it is: with a third
    argument that is the decimal writing of a number from 1 to 2^31 - 1,
    the depth bound of the run is that number. *)
Theorem decimal_depth_is_read_back program directory n :
  1 <= n <= INT32_MAX ->
  atoi (decimal n) = n
  /\ effective_depth [program; directory; decimal n] = n.
Proof.
  intros Hn.
  assert (Ha : atoi (decimal n) = n).
  { unfold atoi. rewrite strtol_decimal by lia.
    unfold INT32_MAX, LONG_MAX in *.
    change (2 ^ 31) with 2147483648 in *. change (2 ^ 63) with 9223372036854775808.
    rewrite Z.min_r by lia. apply to_int32_small.
    unfold INT32_MIN, INT32_MAX. change (2 ^ 31) with 2147483648. lia. }
  split; [exact Ha |].
  unfold effective_depth. rewrite parse_depth_max_depth by reflexivity.
  cbn [length nth Z.of_nat Z.leb Z.compare Pos.of_succ_nat Pos.succ Pos.compare
       Pos.compare_cont]. rewrite Ha. lia.
Qed.

(** ** Raising the depth bound *)

Lemma expands_raise fs K K' p level :
  level <= K -> K <= K' ->
  expands fs K p level = true -> expands fs K' p level = true.
Proof.
  intros Hl HK Hx. apply expands_iff in Hx. apply expands_iff.
  intuition lia.
Qed.

(** What a walk under the bound [K] visits and renders, a walk of the
    same directory under a greater bound visits and renders too. *)
Lemma walked_listed_raise fs K K' :
  K <= K' -> K' <= INT32_MAX ->
  (forall d level segment evs,
      walked fs K d level segment evs ->
      1 <= level <= K ->
      forall evs', walked fs K' d level segment evs' ->
        (forall p l nd nf, In (Visit p l nd nf) evs -> In (Visit p l nd nf) evs')
        /\ (forall p l line, In (Render p l line) evs ->
              exists line', In (Render p l line') evs'
                            /\ entry_name line' = entry_name line))
  /\ (forall d level segment names count evs,
         listed fs K d level segment names count evs ->
         1 <= level <= K ->
         forall evs', listed fs K' d level segment names count evs' ->
           (forall p l nd nf, In (Visit p l nd nf) evs -> In (Visit p l nd nf) evs')
           /\ (forall p l line, In (Render p l line) evs ->
                 exists line', In (Render p l line') evs'
                               /\ entry_name line' = entry_name line)).
Proof.
  intros HK HK'. apply walked_listed_ind.
  - intros d level segment evs _ IH Hl evs' Hw'.
    inversion Hw' as [d0 l0 s0 body' Hbody']; subst.
    destruct (IH Hl _ Hbody') as [Hv Hr]. split.
    + intros p l nd nf [H | H]; [left; exact H | right; auto].
    + intros p l line [H | H]; [discriminate |].
      destruct (Hr _ _ _ H) as (line' & Hin & Hn). exists line'. split; [right |]; auto.
  - intros d level segment count _ evs' _. split; intros; contradiction.
  - intros d level segment name rest count evs _ _ IH Hl evs' Hl'.
    inversion Hl' as [| d0 l0 s0 n0 r0 c0 rest' _ Hrest'
                       | d0 l0 s0 n0 r0 c0 sub' rest' _ _ Hrest']; subst;
      destruct (IH Hl _ Hrest') as [Hv Hr]; split.
    + intros p l nd nf [H | H]; [discriminate | right; auto].
    + intros p l line [H | H].
      * injection H as <- <- <-. eexists. split; [left; reflexivity | reflexivity].
      * destruct (Hr _ _ _ H) as (line' & Hin & Hn). exists line'. split; [right |]; auto.
    + intros p l nd nf [H | H]; [discriminate |].
      right. apply in_or_app. right. auto.
    + intros p l line [H | H].
      * injection H as <- <- <-. eexists. split; [left; reflexivity | reflexivity].
      * destruct (Hr _ _ _ H) as (line' & Hin & Hn). exists line'.
        split; [right; apply in_or_app; right |]; auto.
  - intros d level segment name rest count sub evs Hx _ IHsub _ IH Hl evs' Hl'.
    assert (HKfits : K <= INT32_MAX) by lia.
    destruct (step_level K HKfits level Hl (expands_level _ _ _ _ Hx)) as [Hstep Hl1].
    pose proof (expands_raise fs K K' _ level (proj2 Hl) HK Hx) as Hx'.
    inversion Hl' as [| d0 l0 s0 n0 r0 c0 rest' Hleaf Hrest'
                       | d0 l0 s0 n0 r0 c0 sub' rest' _ Hsub' Hrest']; subst;
      [congruence |].
    destruct (IH Hl _ Hrest') as [Hv Hr].
    destruct (IHsub ltac:(lia) _ Hsub') as [Hsv Hsr].
    split.
    + intros p l nd nf [H | H]; [discriminate |].
      right. apply in_or_app. apply in_app_or in H. destruct H; [left | right]; auto.
    + intros p l line [H | H].
      * injection H as <- <- <-. eexists. split; [left; reflexivity | reflexivity].
      * apply in_app_or in H. destruct H as [H | H].
        -- destruct (Hsr _ _ _ H) as (line' & Hin & Hn). exists line'.
           split; [right; apply in_or_app; left |]; auto.
        -- destruct (Hr _ _ _ H) as (line' & Hin & Hn). exists line'.
           split; [right; apply in_or_app; right |]; auto.
Qed.

(** X10. Raising the depth bound only adds: two runs on the same root,
    the second with a depth bound at least that of the first, the second
    visits every directory the first visits, with the same counts, and
    renders a line for every entry the first renders one for, at the
    same level. *)
Theorem raising_the_bound_only_adds fs argv argv' r r' :
  main fs argv = Some r ->
  main fs argv' = Some r' ->
  root_of argv = root_of argv' ->
  effective_depth argv <= effective_depth argv' ->
  (forall p l nd nf, In (Visit p l nd nf) (trace r) -> In (Visit p l nd nf) (trace r'))
  /\ (forall p l line, In (Render p l line) (trace r) ->
        exists line', In (Render p l line') (trace r')
                      /\ entry_name line' = entry_name line).
Proof.
  intros Hmain Hmain' Hroot Hle.
  pose proof (effective_depth_bounds argv) as Hb.
  pose proof (effective_depth_bounds argv') as Hb'.
  destruct (main_inversion fs argv r Hmain)
    as [(_ & _ & _ & Hnil & _) | (Hd & _ & _ & Ht & _)].
  { rewrite Hnil. split; intros; contradiction. }
  destruct (main_inversion fs argv' r' Hmain')
    as [(Hd' & _) | (_ & _ & _ & Ht' & _)]; [rewrite Hroot in Hd; congruence |].
  apply traverse_walked in Ht, Ht'. destruct Ht as [Hw _], Ht' as [Hw' _].
  rewrite started_max_depth in Hw, Hw'. rewrite <- Hroot in Hw'.
  exact (proj1 (walked_listed_raise fs _ _ Hle (proj2 Hb')) _ _ _ _ Hw
           ltac:(lia) _ Hw').
Qed.

(** ** What follows a line *)

Lemma listed_headed_by_line fs md d level segment names count evs :
  listed fs md d level segment names count evs -> headed_by_line evs.
Proof. destruct 1; exact I. Qed.

Lemma headed_by_line_app evs evs' :
  headed_by_line evs -> headed_by_line evs' -> headed_by_line (evs ++ evs').
Proof. destruct evs as [| [] ?]; simpl; auto. Qed.

Lemma walked_listed_followed fs md :
  (forall d level segment evs,
      walked fs md d level segment evs ->
      forall pre p l line post, evs = (pre ++ Render p l line :: post)%list ->
        (expands fs md (child p (entry_name line)) l = true ->
         exists post',
           post = Visit (child p (entry_name line)) (to_int32 (1 + l))
                    (directories_in fs (child p (entry_name line)))
                    (files_in fs (child p (entry_name line))) :: post')
        /\ (expands fs md (child p (entry_name line)) l = false -> headed_by_line post))
  /\ (forall d level segment names count evs,
         listed fs md d level segment names count evs ->
         forall pre p l line post, evs = (pre ++ Render p l line :: post)%list ->
           (expands fs md (child p (entry_name line)) l = true ->
            exists post',
              post = Visit (child p (entry_name line)) (to_int32 (1 + l))
                       (directories_in fs (child p (entry_name line)))
                       (files_in fs (child p (entry_name line))) :: post')
           /\ (expands fs md (child p (entry_name line)) l = false ->
               headed_by_line post)).
Proof.
  apply walked_listed_ind.
  - intros d level segment evs _ IH pre p l line post H.
    destruct pre as [| x pre]; [discriminate |].
    injection H as _ H. eauto.
  - intros d level segment count pre p l line post H. destruct pre; discriminate.
  - intros d level segment name rest count evs Hleaf Hrest IH pre p l line post H.
    destruct pre as [| x pre].
    + injection H as <- <- <- <-. rewrite entry_name_line_of. split.
      * congruence.
      * intros _. eapply listed_headed_by_line. exact Hrest.
    + injection H as _ H. eauto.
  - intros d level segment name rest count sub evs Hx Hw IHsub Hrest IH
      pre p l line post H.
    destruct pre as [| x pre].
    + injection H as <- <- <- <-. rewrite entry_name_line_of. split; [| congruence].
      intros _. destruct (walked_head _ _ _ _ _ _ Hw) as (body & -> & _).
      eexists. reflexivity.
    + injection H as _ H.
      apply app_eq_app in H. destruct H as [mid [[Hsub Hpost] | [Hpre Hevs]]].
      * destruct mid as [| y mid].
        -- simpl in Hpost. apply (IH [] _ _ _ _ (eq_sym Hpost)).
        -- injection Hpost as <- ->.
           destruct (IHsub _ _ _ _ _ Hsub) as [Hyes Hno]. split.
           ++ intros Hgo. destruct (Hyes Hgo) as [post' ->]. eexists. reflexivity.
           ++ intros Hstay. apply headed_by_line_app; [auto |].
              eapply listed_headed_by_line. exact Hrest.
      * eauto.
Qed.

(** X11. What is in a directory follows its line at once: in a run of
    [main], the event right after the line of an entry is the call of
    [traverse] on that entry when the condition of line 126 holds for
    the locals of the line, and otherwise the next line, if any. *)
Theorem visit_follows_line fs argv r pre d l line post :
  main fs argv = Some r ->
  trace r = (pre ++ Render d l line :: post)%list ->
  if recurses (flags line) l (max_depth (final r))
  then exists nd nf post',
         post = Visit (child d (entry_name line)) (l + 1) nd nf :: post'
  else headed_by_line post.
Proof.
  intros Hmain Heq.
  assert (Hin : In (Render d l line) (trace r))
    by (rewrite Heq; apply in_or_app; right; left; reflexivity).
  destruct (main_walked fs argv r Hmain) as [Hnil | (Hmd & Hw & _)];
    [rewrite Hnil in Hin; destruct Hin |].
  pose proof (effective_depth_bounds argv) as Hb. rewrite Hmd.
  destruct (proj1 (walked_listed_lines fs _) _ _ _ _ Hw _ _ _ Hin)
    as (seg & name & count & Hline & _).
  assert (Hflags : flags line = probe_of fs (child d (entry_name line))).
  { rewrite Hline at 1. rewrite Hline. reflexivity. }
  rewrite Hflags.
  fold (expands fs (effective_depth argv) (child d (entry_name line)) l).
  destruct (proj1 (walked_listed_followed fs _) _ _ _ _ Hw _ _ _ _ _ Heq) as [Hyes Hno].
  destruct (expands fs (effective_depth argv) (child d (entry_name line)) l) eqn:Hx.
  - destruct (Hyes eq_refl) as [post' ->].
    pose proof (proj1 (walked_listed_levelled fs _ (proj2 Hb)) _ _ _ _ Hw
                  ltac:(lia) _ Hin) as [_ Hl].
    cbn [event_level] in Hl.
    destruct (step_level _ (proj2 Hb) l Hl (expands_level _ _ _ _ Hx)) as [-> _].
    eauto.
  - apply Hno. reflexivity.
Qed.

(** ** The further properties on the sample runs *)

(** On [sample_run], the line of [locked] is its glyph, its name in blue
    and the marker. *)
Lemma line_label_witness :
  main sample_fs sample_argv = Some sample_run
  /\ In (Render sample_root 1 locked_line) (trace sample_run)
  /\ exists segment,
       text locked_line
       = segment ++ LAST_BRANCH ++ " " ++ blue "locked" ++ " [access denied]" ++ NEWLINE.
Proof.
  assert (H1 : main sample_fs sample_argv = Some sample_run)
    by (vm_compute; reflexivity).
  assert (H2 : In (Render sample_root 1 locked_line) (trace sample_run))
    by (vm_compute; pick).
  destruct (line_label sample_fs sample_argv sample_run sample_root 1 locked_line H1 H2)
    as ((segment & Htext) & _).
  split; [exact H1 | split; [exact H2 |]].
  exists segment. rewrite Htext. reflexivity.
Defined.


(** In [sample_fs], the Counter finds nothing in [locked] and hands the
    denial back. *)
Lemma counter_leaves_last_error_witness :
  opendir sample_fs (child sample_root "locked") = Failed EACCES
  /\ number_of_directories_in_directory sample_fs (child sample_root "locked")
       initial_state
     = (0, set_err EACCES initial_state).
Proof.
  assert (H1 : opendir sample_fs (child sample_root "locked") = Failed EACCES)
    by reflexivity.
  destruct (counter_leaves_last_error sample_fs (child sample_root "locked")
              initial_state) as (_ & _ & Hfail).
  destruct (Hfail EACCES H1) as [Hd _].
  split; [exact H1 | exact Hd].
Defined.

(** [sample_run] reports the four blue lines and the two others. *)
Lemma summary_counts_the_lines_witness :
  main sample_fs sample_argv = Some sample_run
  /\ Z.of_nat (length (trace sample_run)) < SIZE_MODULUS
  /\ total_directories (final sample_run) = directory_lines (trace sample_run)
  /\ total_files (final sample_run) = file_lines (trace sample_run).
Proof.
  assert (H1 : main sample_fs sample_argv = Some sample_run)
    by (vm_compute; reflexivity).
  assert (H2 : Z.of_nat (length (trace sample_run)) < SIZE_MODULUS)
    by (vm_compute; reflexivity).
  destruct (summary_counts_the_lines sample_fs sample_argv sample_run H1 H2)
    as [Hd Hf].
  repeat split; assumption.
Defined.

(** With no depth given, the call on [.] renders its four entries and
    nothing else. *)
Lemma call_at_the_bound_witness :
  traverse sample_fs 1 sample_root 1 "" initial_state
  = Some (trace shallow_run, final shallow_run)
  /\ 1 = max_depth initial_state
  /\ printed (trace shallow_run)
     = join (map text (lines_from sample_fs 1 sample_root 1 ""
                         (listing sample_fs sample_root) 0)).
Proof.
  assert (H1 : traverse sample_fs 1 sample_root 1 "" initial_state
               = Some (trace shallow_run, final shallow_run))
    by (vm_compute; reflexivity).
  assert (H2 : 1 = max_depth initial_state) by reflexivity.
  destruct (call_at_the_bound sample_fs 1 sample_root 1 "" initial_state
              (trace shallow_run) (final shallow_run) H1 H2) as (_ & Hp & _).
  split; [exact H1 | split; [exact H2 | exact Hp]].
Defined.

(** On [vanished_run], [gone] is gone into and found empty. *)
Lemma unopenable_directory_is_entered_witness :
  main vanished_fs sample_argv = Some vanished_run
  /\ In (Render sample_root 1 gone_line) (trace vanished_run)
  /\ directory_at vanished_fs (child sample_root "gone") = true
  /\ symlink_at vanished_fs (child sample_root "gone") = false
  /\ opendir vanished_fs (child sample_root "gone") = Failed ENOENT
  /\ ENOENT <> EACCES
  /\ 1 < max_depth (final vanished_run)
  /\ In (Visit (child sample_root "gone") 2 0 0) (trace vanished_run).
Proof.
  assert (H1 : main vanished_fs sample_argv = Some vanished_run)
    by (vm_compute; reflexivity).
  assert (H2 : In (Render sample_root 1 gone_line) (trace vanished_run))
    by (vm_compute; pick).
  assert (H3 : directory_at vanished_fs (child sample_root (entry_name gone_line)) = true)
    by reflexivity.
  assert (H4 : symlink_at vanished_fs (child sample_root (entry_name gone_line)) = false)
    by reflexivity.
  assert (H5 : opendir vanished_fs (child sample_root (entry_name gone_line))
               = Failed ENOENT) by reflexivity.
  assert (H6 : ENOENT <> EACCES) by discriminate.
  assert (H7 : 1 < max_depth (final vanished_run)) by reflexivity.
  destruct (unopenable_directory_is_entered vanished_fs sample_argv vanished_run
              sample_root 1 gone_line ENOENT H1 H2 H3 H4 H5 H6 H7) as (Hv & _).
  repeat split; try assumption; discriminate.
Defined.

(** The traversal of [sample_run] starts from totals of 0 and leaves
    the bound at 2. *)
Lemma traverse_keeps_the_bound_witness :
  traverse sample_fs 2 sample_root 1 "" (started sample_argv)
  = Some (trace sample_run, final sample_run)
  /\ 0 <= total_directories (started sample_argv)
  /\ 0 <= total_files (started sample_argv)
  /\ total_directories (started sample_argv) + sum_directories (trace sample_run)
     < SIZE_MODULUS
  /\ total_files (started sample_argv) + sum_files (trace sample_run) < SIZE_MODULUS
  /\ max_depth (final sample_run) = max_depth (started sample_argv).
Proof.
  assert (H1 : traverse sample_fs 2 sample_root 1 "" (started sample_argv)
               = Some (trace sample_run, final sample_run))
    by (vm_compute; reflexivity).
  assert (H2 : 0 <= total_directories (started sample_argv)) by (vm_compute; discriminate).
  assert (H3 : 0 <= total_files (started sample_argv)) by (vm_compute; discriminate).
  assert (H4 : total_directories (started sample_argv)
               + sum_directories (trace sample_run) < SIZE_MODULUS)
    by (vm_compute; reflexivity).
  assert (H5 : total_files (started sample_argv) + sum_files (trace sample_run)
               < SIZE_MODULUS) by (vm_compute; reflexivity).
  destruct (traverse_keeps_the_bound sample_fs 2 sample_root 1 ""
              (started sample_argv) (trace sample_run) (final sample_run)
              H1 H2 H3 H4 H5) as (Hm & _).
  repeat split; assumption.
Defined.

(** A depth of 3 is read back as 3. *)
Lemma decimal_depth_is_read_back_witness :
  1 <= 3 <= INT32_MAX /\ effective_depth ["cxx-tree"; "."; decimal 3] = 3.
Proof.
  assert (H1 : 1 <= 3 <= INT32_MAX) by (vm_compute; split; discriminate).
  destruct (decimal_depth_is_read_back "cxx-tree" "." 3 H1) as [_ Hd].
  split; [exact H1 | exact Hd].
Defined.

(** What [shallow_run] visits, [sample_run] visits. *)
Lemma raising_the_bound_only_adds_witness :
  main sample_fs ["cxx-tree"; "."] = Some shallow_run
  /\ main sample_fs sample_argv = Some sample_run
  /\ root_of ["cxx-tree"; "."] = root_of sample_argv
  /\ effective_depth ["cxx-tree"; "."] <= effective_depth sample_argv
  /\ forall p l nd nf,
       In (Visit p l nd nf) (trace shallow_run) -> In (Visit p l nd nf) (trace sample_run).
Proof.
  assert (H1 : main sample_fs ["cxx-tree"; "."] = Some shallow_run)
    by (vm_compute; reflexivity).
  assert (H2 : main sample_fs sample_argv = Some sample_run)
    by (vm_compute; reflexivity).
  assert (H3 : root_of ["cxx-tree"; "."] = root_of sample_argv) by reflexivity.
  assert (H4 : effective_depth ["cxx-tree"; "."] <= effective_depth sample_argv)
    by (vm_compute; discriminate).
  destruct (raising_the_bound_only_adds sample_fs ["cxx-tree"; "."] sample_argv
              shallow_run sample_run H1 H2 H3 H4) as [Hv _].
  repeat split; assumption.
Defined.

(** On [sample_run], the visit of [sub] comes right after its line. *)
Lemma visit_follows_line_witness :
  main sample_fs sample_argv = Some sample_run
  /\ trace sample_run
     = (firstn 2 (trace sample_run) ++ Render sample_root 1 sub_line
          :: skipn 3 (trace sample_run))%list
  /\ exists nd nf post',
       skipn 3 (trace sample_run) = Visit (child sample_root "sub") 2 nd nf :: post'.
Proof.
  assert (H1 : main sample_fs sample_argv = Some sample_run)
    by (vm_compute; reflexivity).
  assert (H2 : trace sample_run
               = (firstn 2 (trace sample_run) ++ Render sample_root 1 sub_line
                    :: skipn 3 (trace sample_run))%list)
    by (vm_compute; reflexivity).
  pose proof (visit_follows_line sample_fs sample_argv sample_run
                (firstn 2 (trace sample_run)) sample_root 1 sub_line
                (skipn 3 (trace sample_run)) H1 H2) as H.
  split; [exact H1 | split; [exact H2 | exact H]].
Defined.
